(** * Combat-script compiler of granblue-auto-py

    A shallow embedding of [backend/utils/parser.py] (class [Parser]) and
    the properties of its compiled output.

    Python values are modelled as follows.
    - [str] is [string]; a character is a code point below 256.
    - [int] is [Z].
    - An exception is a constructor of [exn]; a call that may raise returns
      an [outcome].
    - A [dict] keyed by integers is an association list kept in insertion
      order ([Dict]).
    - The lists the parser pops from are passed and returned explicitly:
      [parse_raids] builds its working list itself with [pre_parse], so the
      in-place [pop(0)] of the helpers is never visible to a caller. *)

From Stdlib Require Import String Ascii List ZArith NArith Bool Lia Arith.
Import ListNotations.

Local Open Scope string_scope.
Local Open Scope list_scope.

(** ** Exceptions and outcomes *)

Inductive exn : Type :=
| ValueError_literal
    (* int() applied to text that is not a decimal literal *)
| ValueError_character (idx : Z)
    (* ValueError("[Parser] Invalid chracter number: idx") *)
| ValueError_skill (idx : Z)
    (* ValueError("[Parser] Invalid skill number: idx") *)
| ValueError_target (idx : Z)
    (* ValueError("[Parser] Invalid skill target number: idx") *)
| ValueError_bare
    (* raise ValueError, in the summon branch of _parse_turn *)
| RuntimeError_target
    (* RuntimeError("[Parser] Select a skill before picking a target") *)
| TypeError_unhashable
    (* TypeError: unhashable type: 'dict' *)
| IndexError.
    (* index or pop out of range *)

(** [OutOfFuel] is not a Python outcome: it marks a loop of the model that
    was given too few iterations.  [Cycle.parse_raids_halts] shows that the
    parser never produces it. *)
Inductive outcome (A : Type) : Type :=
| Ok (a : A)
| Raise (e : exn)
| OutOfFuel.

Arguments Ok {A} a.
Arguments Raise {A} e.
Arguments OutOfFuel {A}.

Definition bind {A B : Type} (m : outcome A) (k : A -> outcome B) : outcome B :=
  match m with
  | Ok a => k a
  | Raise e => Raise e
  | OutOfFuel => OutOfFuel
  end.

Notation "x <- m ;; k" := (bind m (fun x => k))
  (at level 61, m at next level, right associativity).
Notation "' p <- m ;; k" := (bind m (fun x => match x with p => k end))
  (at level 61, p pattern, m at next level, right associativity).

Definition raises {A : Type} (m : outcome A) : bool :=
  match m with Raise _ => true | _ => false end.

(** The call returns a value or raises: the model's loop had iterations
    enough. *)
Definition halts {A : Type} (m : outcome A) : Prop := m <> OutOfFuel.

(** ** Strings *)

Module Str.

Definition code (c : ascii) : N := N_of_ascii c.

Definition between (lo hi n : N) : bool := (lo <=? n)%N && (n <=? hi)%N.

(** The characters [str.strip] removes: the code points below 256 for
    which [str.isspace] holds. *)
Definition isspace (c : ascii) : bool :=
  let n := code c in
  between 9 13 n || between 28 32 n || (n =? 133)%N || (n =? 160)%N.

(** [str.lower] on one code point below 256. *)
Definition lower_char (c : ascii) : ascii :=
  let n := code c in
  if between 65 90 n || (between 192 222 n && negb (n =? 215)%N)
  then ascii_of_N (n + 32)
  else c.

Fixpoint lower (s : string) : string :=
  match s with
  | EmptyString => EmptyString
  | String c s' => String (lower_char c) (lower s')
  end.

Fixpoint lstrip (s : string) : string :=
  match s with
  | EmptyString => EmptyString
  | String c s' => if isspace c then lstrip s' else s
  end.

Fixpoint rstrip (s : string) : string :=
  match s with
  | EmptyString => EmptyString
  | String c s' =>
      match rstrip s' with
      | EmptyString => if isspace c then EmptyString else String c EmptyString
      | r => String c r
      end
  end.

Definition strip (s : string) : string := rstrip (lstrip s).

(** A string is [headed] when it does not start with white space. *)
Definition headed (s : string) : Prop :=
  match s with
  | EmptyString => True
  | String c _ => isspace c = false
  end.

(** [s.startswith(p)] *)
Fixpoint startswith (s p : string) {struct p} : bool :=
  match p with
  | EmptyString => true
  | String a p' =>
      match s with
      | EmptyString => false
      | String b s' => Ascii.eqb b a && startswith s' p'
      end
  end.

(** [s.split(sep)] for a one-character separator. *)
Fixpoint split (sep : ascii) (s : string) : list string :=
  match s with
  | EmptyString => [EmptyString]
  | String c s' =>
      if Ascii.eqb c sep then EmptyString :: split sep s'
      else match split sep s' with
           | h :: t => String c h :: t
           | [] => [String c EmptyString]
           end
  end.

(** [c in s] for a character [c]. *)
Fixpoint has (c : ascii) (s : string) : bool :=
  match s with
  | EmptyString => false
  | String a s' => Ascii.eqb a c || has c s'
  end.

(** The part of [s] before the first [sep], all of [s] when there is none:
    [s.split(sep)[0]]. *)
Fixpoint before (sep : ascii) (s : string) : string :=
  match s with
  | EmptyString => EmptyString
  | String c s' => if Ascii.eqb c sep then EmptyString else String c (before sep s')
  end.

(** [s[-k]] for [k >= 1], as a one-character string. *)
Definition index_from_end (s : string) (k : nat) : outcome string :=
  let n := String.length s in
  if (n <? k)%nat then Raise IndexError
  else match String.get (n - k) s with
       | Some c => Ok (String c EmptyString)
       | None => Raise IndexError
       end.

Fixpoint drop (n : nat) (s : string) : string :=
  match n, s with
  | O, _ => s
  | S n', String _ s' => drop n' s'
  | S _, EmptyString => EmptyString
  end.

Fixpoint drop_last (s : string) : string :=
  match s with
  | EmptyString => EmptyString
  | String c EmptyString => EmptyString
  | String c s' => String c (drop_last s')
  end.

(** [s[5:-1]] *)
Definition slice_5_m1 (s : string) : string := drop_last (drop 5 s).

(** *** [int(s)]

    Base 10, with optional sign and surrounding white space.  The limit
    recent interpreters put on the number of digits is not modelled. *)

(** The white space [int] skips around a literal: the ASCII white space
    of the C locale and the two non-ASCII spaces below 256. *)
Definition int_space (c : ascii) : bool :=
  let n := code c in
  between 9 13 n || (n =? 32)%N || (n =? 133)%N || (n =? 160)%N.

Fixpoint int_lskip (s : string) : string :=
  match s with
  | EmptyString => EmptyString
  | String c s' => if int_space c then int_lskip s' else s
  end.

Fixpoint int_rskip (s : string) : string :=
  match s with
  | EmptyString => EmptyString
  | String c s' =>
      match int_rskip s' with
      | EmptyString => if int_space c then EmptyString else String c EmptyString
      | r => String c r
      end
  end.

Definition digit (c : ascii) : option Z :=
  let n := code c in
  if between 48 57 n then Some (Z.of_N n - 48)%Z else None.

(** Digits with single underscores between them. *)
Fixpoint digits (acc : Z) (after_digit : bool) (s : string) : option Z :=
  match s with
  | EmptyString => if after_digit then Some acc else None
  | String c s' =>
      match digit c with
      | Some d => digits (10 * acc + d)%Z true s'
      | None =>
          if Ascii.eqb c "_" && after_digit then
            match s' with
            | EmptyString => None
            | _ => digits acc false s'
            end
          else None
      end
  end.

Definition int (s : string) : outcome Z :=
  let body := int_rskip (int_lskip s) in
  let '(sign, body) :=
    match body with
    | String "+" r => (1%Z, r)
    | String "-" r => ((-1)%Z, r)
    | _ => (1%Z, body)
    end in
  match digits 0 false body with
  | Some n => Ok (sign * n)%Z
  | None => Raise ValueError_literal
  end.

End Str.

(** ** Dictionaries with integer keys, in insertion order *)

Module Dict.

Definition t (V : Type) : Type := list (Z * V).

Definition empty {V : Type} : t V := [].

Fixpoint get {V : Type} (k : Z) (d : t V) : option V :=
  match d with
  | [] => None
  | (k', v) :: d' => if (k =? k')%Z then Some v else get k d'
  end.

(** [d[k] = v]: an existing key keeps its place and takes the new value,
    a new key goes last. *)
Fixpoint set {V : Type} (k : Z) (v : V) (d : t V) : t V :=
  match d with
  | [] => [(k, v)]
  | (k', v') :: d' =>
      if (k =? k')%Z then (k', v) :: d' else (k', v') :: set k v d'
  end.

Definition keys {V : Type} (d : t V) : list Z := map fst d.

End Dict.

(** ** The parser *)

(** An action is one of the two shapes the parser builds: a one-key dict
    [{key: {name: int, ...}}] or the pair [(key, {})]. *)
Inductive action : Type :=
| Entry (key : string) (args : list (string * Z))
| Pair (key : string).

Definition changechar (idx : Z) : action := Entry "changechar" [("idx", idx)].
Definition selectchar (idx : Z) : action := Entry "selectchar" [("idx", idx)].
Definition useskill (idx : Z) : action := Entry "useskill" [("idx", idx)].
Definition target (idx : Z) : action := Entry "target" [("idx", idx)].
Definition wait (time : Z) : action := Entry "wait" [("time", time)].
Definition usesummon (idx : Z) : action := Entry "usesummon" [("idx", idx)].

(** [{"deselectchar", {}}] is written with a comma: it is a set display
    whose second element is a dict, and a dict is not hashable. *)
Definition deselectchar_display : outcome action := Raise TypeError_unhashable.

(** [x in (lo, ..., hi)] for consecutive integers. *)
Definition in_tuple (lo hi x : Z) : bool := (lo <=? x)%Z && (x <=? hi)%Z.

Fixpoint pre_parse (text : list string) : list string :=
  match text with
  | [] => []
  | raw :: text' =>
      let line := Str.lower (Str.strip raw) in
      if String.eqb line "" || Str.startswith line "#" || Str.startswith line "/"
      then pre_parse text'
      else Str.lstrip line :: pre_parse text'
  end.

Definition _parse_summon (txt : list string)
  : outcome (list string * option string) :=
  match txt with
  | [] => Ok (txt, None)
  | line :: rest =>
      if negb (Str.startswith line "summon:") then Ok (txt, None)
      else match Str.split ":" line with
           | _ :: name :: _ => Ok (rest, Some name)
           | _ => Raise IndexError
           end
  end.

Definition _parse_url (txt : list string) : list string * option string :=
  match txt with
  | [] => (txt, None)
  | line :: rest =>
      if negb (Str.startswith line "http") then (txt, None)
      else (rest, Some line)
  end.

Definition _parse_repeat (txt : list string)
  : outcome (list string * option Z) :=
  match txt with
  | [] => Ok (txt, None)
  | line :: rest =>
      if negb (Str.startswith line "repeat:") then Ok (txt, None)
      else c <- Str.index_from_end line 1 ;;
           n <- Str.int c ;;
           Ok (rest, Some n)
  end.

(** One pass of the [for cmd in chains] loop of [_parse_character]; the
    state is [(ret, is_skill_selected)]. *)
Definition chain_cmd (cmd : string) (st : list action * bool)
  : outcome (list action * bool) :=
  let '(ret, is_skill_selected) := st in
  if Str.startswith cmd "useskill" then
    c <- Str.index_from_end cmd 2 ;;
    skill_idx <- Str.int c ;;
    if negb (in_tuple 1 4 skill_idx) then Raise (ValueError_skill skill_idx)
    else Ok (ret ++ [useskill (skill_idx - 1)], true)
  else if Str.startswith cmd "target" then
    c <- Str.index_from_end cmd 2 ;;
    target_idx <- Str.int c ;;
    if negb (in_tuple 1 6 target_idx) then Raise (ValueError_target target_idx)
    else if negb is_skill_selected then Raise RuntimeError_target
    else Ok (ret ++ [target (target_idx - 1)], false)
  else Ok (ret, is_skill_selected).

Fixpoint chain_loop (chains : list string) (st : list action * bool)
  : outcome (list action * bool) :=
  match chains with
  | [] => Ok st
  | cmd :: chains' => st' <- chain_cmd cmd st ;; chain_loop chains' st'
  end.

Definition _parse_character (line : string) (is_char_selected : bool)
  : outcome (list action) :=
  match Str.split "." line with
  | [] => Raise IndexError
  | first :: chains =>
      c <- Str.index_from_end first 1 ;;
      char_idx <- Str.int c ;;
      if negb (in_tuple 1 4 char_idx) then Raise (ValueError_character char_idx)
      else
        let ret := if is_char_selected
                   then [changechar (char_idx - 1)]
                   else [selectchar (char_idx - 1)] in
        st <- chain_loop chains (ret, false) ;;
        Ok (fst st)
  end.

(** The [while len(remain_txt) > 0] loop of [_parse_turn]; every pass pops
    one line, so the recursion is on the list itself. *)
Fixpoint turn_loop (remain_txt : list string) (is_char_selected : bool)
    (combact_act : list action) : outcome (list string * list action) :=
  match remain_txt with
  | [] => Ok ([], combact_act)
  | line :: remain_txt =>
      if Str.startswith line "character" then
        acts <- _parse_character line is_char_selected ;;
        turn_loop remain_txt true (combact_act ++ acts)
      else if Str.startswith line "wait" then
        time <- Str.int (Str.slice_5_m1 line) ;;
        turn_loop remain_txt is_char_selected (combact_act ++ [wait time])
      else if Str.startswith line "summon" then
        c <- Str.index_from_end line 2 ;;
        idx <- Str.int c ;;
        if negb (in_tuple 1 6 idx) then Raise ValueError_bare
        else if is_char_selected then
          d <- deselectchar_display ;;
          turn_loop remain_txt false (combact_act ++ [d] ++ [usesummon (idx - 1)])
        else
          turn_loop remain_txt is_char_selected
            (combact_act ++ [usesummon (idx - 1)])
      else if String.eqb line "attack" then
        turn_loop remain_txt false (combact_act ++ [Pair line])
      else if String.eqb line "enablefullauto" then
        if is_char_selected then
          d <- deselectchar_display ;;
          turn_loop remain_txt false (combact_act ++ [d] ++ [Entry line []])
        else
          turn_loop remain_txt is_char_selected (combact_act ++ [Entry line []])
      else if String.eqb line "end" then
        Ok (remain_txt, combact_act)
      else
        turn_loop remain_txt is_char_selected (combact_act ++ [Entry line []])
  end.

Definition _parse_turn (text : list string)
  : outcome (list string * Z * list action) :=
  match text with
  | [] => Raise IndexError
  | first :: remain_txt =>
      c <- Str.index_from_end first 2 ;;
      turn <- Str.int c ;;
      '(remain_txt, combact_act) <- turn_loop remain_txt false [] ;;
      Ok (remain_txt, turn, combact_act)
  end.

Definition turns : Type := Dict.t (list action).

(** The [while ... startswith('turn')] loop of [_parse_combact].  A pass
    hands the list to [_parse_turn], which pops at least the [turn] line,
    so [fuel] above the length of [remain_txt] is never used up. *)
Fixpoint combact_loop (fuel : nat) (remain_txt : list string)
    (combact_actions : turns) : outcome (list string * turns) :=
  match fuel with
  | O => OutOfFuel
  | S fuel =>
      match remain_txt with
      | [] => Ok (remain_txt, combact_actions)
      | line :: _ =>
          if Str.startswith line "turn" then
            '(remain_txt, turn, actions) <- _parse_turn remain_txt ;;
            combact_loop fuel remain_txt (Dict.set turn actions combact_actions)
          else Ok (remain_txt, combact_actions)
      end
  end.

Definition _parse_combact (text : list string) : outcome (list string * turns) :=
  match text with
  | [] => Ok (text, Dict.empty)
  | _ => combact_loop (S (List.length text)) text Dict.empty
  end.

(** [raid_info]: a dict that holds at most the keys ['url'], ['summon'] and
    ['repeat'], none of them ever bound to [None]. *)
Record info : Type := mk_info {
  url : option string;
  summon : option string;
  repeat : option Z
}.

Definition no_info : info := mk_info None None None.

(** [{'info': raid_info, 'combact_actions': combact_actions}] *)
Record raid : Type := mk_raid {
  raid_info_of : info;
  combact_actions_of : turns
}.

(** The local variables of [parse_raids]. *)
Record locals : Type := mk_locals {
  remain_txt : list string;
  list_of_raids : Dict.t raid;
  raid_cnt : Z;
  raid_info : info;
  combact_actions : turns
}.

Definition with_remain (remain : list string) (s : locals) : locals :=
  mk_locals remain (list_of_raids s) (raid_cnt s) (raid_info s)
    (combact_actions s).

Definition with_info (i : info) (s : locals) : locals :=
  mk_locals (remain_txt s) (list_of_raids s) (raid_cnt s) i (combact_actions s).

Definition with_actions (acts : turns) (s : locals) : locals :=
  mk_locals (remain_txt s) (list_of_raids s) (raid_cnt s) (raid_info s) acts.

(** [raid_cnt += 1]
    [list_of_raids[raid_cnt] = {'info': raid_info, 'combact_actions': combact_actions}] *)
Definition conclude (s : locals) : locals :=
  let cnt := (raid_cnt s + 1)%Z in
  mk_locals (remain_txt s)
    (Dict.set cnt (mk_raid (raid_info s) (combact_actions s)) (list_of_raids s))
    cnt (raid_info s) (combact_actions s).

(** [raid_info = {}; combact_actions = {}] *)
Definition fresh_raid (s : locals) : locals :=
  mk_locals (remain_txt s) (list_of_raids s) (raid_cnt s) no_info Dict.empty.

(** The [if url is not None] block. *)
Definition on_url (u : option string) (s : locals) : locals :=
  match u with
  | Some line =>
      let s := match url (raid_info s) with
               | Some _ => fresh_raid (conclude s)
               | None => s
               end in
      with_info (mk_info (Some line) (summon (raid_info s))
                   (repeat (raid_info s))) s
  | None => s
  end.

Definition on_summon (sm : option string) (s : locals) : locals :=
  match sm with
  | Some name =>
      with_info (mk_info (url (raid_info s)) (Some name)
                   (repeat (raid_info s))) s
  | None => s
  end.

Definition on_repeat (rp : option Z) (s : locals) : locals :=
  match rp with
  | Some n =>
      with_info (mk_info (url (raid_info s)) (summon (raid_info s))
                   (Some n)) s
  | None => s
  end.

(** [remain_txt.pop(0)] *)
Definition pop_first (s : locals) : outcome locals :=
  match remain_txt s with
  | [] => Raise IndexError
  | _ :: remain => Ok (with_remain remain s)
  end.

(** One pass of the body of [while len(remain_txt) > 0] in [parse_raids]. *)
Definition cycle (s : locals) : outcome locals :=
  let lines_left := List.length (remain_txt s) in
  let '(remain, u) := _parse_url (remain_txt s) in
  let s := on_url u (with_remain remain s) in
  '(remain, sm) <- _parse_summon (remain_txt s) ;;
  let s := on_summon sm (with_remain remain s) in
  '(remain, rp) <- _parse_repeat (remain_txt s) ;;
  let s := on_repeat rp (with_remain remain s) in
  '(remain, acts) <- _parse_combact (remain_txt s) ;;
  let s := with_actions acts (with_remain remain s) in
  if (lines_left =? List.length (remain_txt s))%nat then pop_first s
  else Ok s.

(** The [while len(remain_txt) > 0] loop.  A pass shortens [remain_txt], so
    [fuel] equal to its length is never used up. *)
Fixpoint raids_loop (fuel : nat) (s : locals) : outcome locals :=
  match remain_txt s with
  | [] => Ok s
  | _ :: _ =>
      match fuel with
      | O => OutOfFuel
      | S fuel => s' <- cycle s ;; raids_loop fuel s'
      end
  end.

Definition start (txt : list string) : locals :=
  mk_locals (pre_parse txt) Dict.empty 0 no_info Dict.empty.

Definition parse_raids (txt : list string) : outcome (Dict.t raid) :=
  s <- raids_loop (List.length (pre_parse txt)) (start txt) ;;
  Ok (list_of_raids (conclude s)).

(** ** The caller: [bot/game_modes/generic_v2.py]

    [GenericV2.start] compiles the script and drives the game with it.
    What it calls outside this file (the combat mode, the windows, the
    mouse, the log) acts on the screen and the game: it is a parameter
    here, a function on a state [World] that may raise.  So are
    [single_battle] and [battle_exit_handler], whose bodies are calls of
    that kind only. *)

Module GenericV2.

(** The fields of [Settings] that [GenericV2] reads. *)
Record settings : Type := mk_settings {
  combat_script : list string;
  summon_list : list string;
  item_amount_to_farm : Z
}.

(** The messages [GenericV2.start] logs. *)
Inductive message : Type :=
| Parsing
| StartBattle (url : option string) (repeat : Z)
| RepeatFor (i : Z)
| Finished.

(** [range(lo, hi)] *)
Definition py_range (lo hi : Z) : list Z :=
  map (fun k => (lo + Z.of_nat k)%Z) (seq 0 (Z.to_nat (hi - lo))).

Section Externals.

Variable World : Type.
Variable settings_now : settings.
(* Combat.load_actions *)
Variable load_actions : turns -> World -> outcome World.
(* Window.goto *)
Variable goto : option string -> World -> outcome World.
(* GenericV2.single_battle *)
Variable single_battle : list (option string) -> World -> outcome World.
(* GenericV2.battle_exit_handler *)
Variable battle_exit_handler : bool -> option string -> World -> outcome World.
(* Game._delay_between_runs *)
Variable delay_between_runs : World -> outcome World.
(* np.random.rand() > .9 *)
Variable rand_above : World -> bool * World.
(* Game._move_mouse_security_check *)
Variable move_mouse_security_check : World -> outcome World.
(* ImageUtils._summon_selection_first_run = False *)
Variable clear_first_run : World -> World.
(* Log.print_message *)
Variable print_message : message -> World -> World.

(** [support_summon] is first bound to a one-element list, so the test
    [support_summon is None] that follows is on a list. *)
Definition get_info (r : raid) (w : World)
  : outcome (World * (option string * list (option string) * Z)) :=
  let info := raid_info_of r in
  let combact_actions := combact_actions_of r in
  w <- load_actions combact_actions w ;;
  let url := url info in
  let support_summon : option (list (option string)) := Some [summon info] in
  let support_summon :=
    match support_summon with
    | None => map Some (summon_list settings_now)
    | Some l => l
    end in
  let repeat :=
    match repeat info with
    | None => item_amount_to_farm settings_now
    | Some n => n
    end in
  Ok (w, (url, support_summon, repeat)).

(** The body of [for i in range(1, repeat)]. *)
Definition battle_round (url : option string)
    (support_summon : list (option string)) (i : Z) (w : World)
  : outcome World :=
  let w := print_message (RepeatFor i) w in
  w <- single_battle support_summon w ;;
  w <- battle_exit_handler (i =? 1)%Z url w ;;
  w <- delay_between_runs w ;;
  let '(above, w) := rand_above w in
  if above then move_mouse_security_check w else Ok w.

Fixpoint battle_rounds (url : option string)
    (support_summon : list (option string)) (rounds : list Z) (w : World)
  : outcome World :=
  match rounds with
  | [] => Ok w
  | i :: rounds =>
      w <- battle_round url support_summon i w ;;
      battle_rounds url support_summon rounds w
  end.

(** The body of [for raid_id in list_of_raids]; the keys of a dict are
    distinct, so [list_of_raids[raid_id]] is the value of the entry. *)
Definition run_raid (r : raid) (w : World) : outcome World :=
  '(w, (url, support_summon, repeat)) <- get_info r w ;;
  let w := print_message (StartBattle url repeat) w in
  w <- goto url w ;;
  battle_rounds url support_summon (py_range 1 repeat) w.

Fixpoint run_raids (raids : Dict.t raid) (w : World) : outcome World :=
  match raids with
  | [] => Ok w
  | (_, r) :: raids => w <- run_raid r w ;; run_raids raids w
  end.

Definition start (w : World) : outcome World :=
  let w := clear_first_run w in
  let w := print_message Parsing w in
  list_of_raids <- parse_raids (combat_script settings_now) ;;
  w <- run_raids list_of_raids w ;;
  Ok (print_message Finished w).

End Externals.

(** A run in which every call outside returns: the world is the list of
    the calls made so far, latest first, and the random draws still to
    come. *)
Inductive call : Type :=
| LoadActions (acts : turns)
| Goto (url : option string)
| SingleBattle (support_summon : list (option string))
| BattleExit (is_first_time : bool) (url : option string)
| DelayBetweenRuns
| SecurityCheck
| ClearFirstRun
| Print (m : message).

Definition traced : Type := list call * list bool.

Definition record_call (c : call) (w : traced) : traced := (c :: fst w, snd w).

Definition draw (w : traced) : bool * traced :=
  match snd w with
  | [] => (false, w)
  | b :: draws => (b, (fst w, draws))
  end.

(** [GenericV2.start] with every call outside recorded. *)
Definition traced_start (st : settings) (w : traced) : outcome traced :=
  start traced st
    (fun acts w => Ok (record_call (LoadActions acts) w))
    (fun url w => Ok (record_call (Goto url) w))
    (fun ss w => Ok (record_call (SingleBattle ss) w))
    (fun b url w => Ok (record_call (BattleExit b url) w))
    (fun w => Ok (record_call DelayBetweenRuns w))
    draw
    (fun w => Ok (record_call SecurityCheck w))
    (record_call ClearFirstRun)
    (fun m => record_call (Print m))
    w.

(** The number of battles recorded. *)
Definition battles (calls : list call) : nat :=
  List.length (filter (fun c => match c with SingleBattle _ => true | _ => false end)
                 calls).

(** The repeat count [get_info] gives for a raid. *)
Definition repeat_of (st : settings) (r : raid) : Z :=
  match repeat (raid_info_of r) with
  | None => item_amount_to_farm st
  | Some n => n
  end.

End GenericV2.

(** ** Vocabulary of the properties *)

(** What [pre_parse] keeps of a line. *)
Definition normalize (raw : string) : string := Str.lower (Str.strip raw).

(** The lines [pre_parse] leaves out. *)
Definition drops (raw : string) : bool :=
  let t := Str.strip raw in
  String.eqb t "" || Str.startswith t "#" || Str.startswith t "/".

(** The lines the specification says are left out: those that, once
    trimmed, are empty or start with [#] or with [//]. *)
Definition spec_drops (raw : string) : bool :=
  let t := Str.strip raw in
  String.eqb t "" || Str.startswith t "#" || Str.startswith t "//".

(** The mapping [_parse_combact] builds from the turn blocks of a run, in
    order: one assignment [combact_actions[turn] = actions] per block. *)
Definition assign_blocks (blocks : list (Z * list action)) (acc : turns)
  : turns :=
  fold_left (fun d b => Dict.set (fst b) (snd b) d) blocks acc.

(** A line the URL step takes. *)
Definition is_url (line : string) : bool := Str.startswith line "http".

(** The URLs of the raids of a compiled script, in the order of the
    script's entries. *)
Definition raid_urls (d : Dict.t raid) : list string :=
  flat_map (fun kr => match url (raid_info_of (snd kr)) with
                      | Some u => [u]
                      | None => []
                      end) d.

(** The URL lines of a script that the URL step of some pass takes: the
    lines that start with [http] and stand outside the turn blocks.  A
    turn block runs from a line that starts with [turn], met outside a
    block, to the next line equal to [end]; [in_block] tells whether the
    lines come inside one. *)
Fixpoint top_urls (in_block : bool) (lines : list string) : list string :=
  match lines with
  | [] => []
  | line :: lines' =>
      if in_block then
        if String.eqb line "end" then top_urls false lines'
        else top_urls true lines'
      else if Str.startswith line "turn" then top_urls true lines'
      else if is_url line then line :: top_urls false lines'
      else top_urls false lines'
  end.

(** The integers [1, ..., n]. *)
Definition first_keys (n : nat) : list Z := map Z.of_nat (seq 1 n).

(** [in_order l1 l2]: [l1] is [l2] with some elements left out. *)
Inductive in_order {A : Type} : list A -> list A -> Prop :=
| in_order_nil : in_order [] []
| in_order_skip (x : A) (l1 l2 : list A) :
    in_order l1 l2 -> in_order l1 (x :: l2)
| in_order_take (x : A) (l1 l2 : list A) :
    in_order l1 l2 -> in_order (x :: l1) (x :: l2).

(** The state a pass reaches before it compares line counts. *)
Definition before_pop (s : locals) (r1 : list string) (u : option string)
    (r2 : list string) (sm : option string) (r3 : list string)
    (rp : option Z) (r4 : list string) (acts : turns) : locals :=
  with_actions acts
    (with_remain r4
       (on_repeat rp
          (with_remain r3
             (on_summon sm (with_remain r2 (on_url u (with_remain r1 s))))))).

(** The URLs recorded so far: those of the concluded raids, then the one
    of the raid in progress. *)
Definition seen_urls (s : locals) : list string :=
  raid_urls (list_of_raids s) ++
  match url (raid_info s) with Some u => [u] | None => [] end.

(** What every pass of the loop preserves. *)
Record numbered (s : locals) : Prop := {
  keys_1_n :
    Dict.keys (list_of_raids s) = first_keys (List.length (list_of_raids s));
  cnt_n : raid_cnt s = Z.of_nat (List.length (list_of_raids s));
  all_have_url :
    List.length (raid_urls (list_of_raids s)) = List.length (list_of_raids s);
  started : list_of_raids s <> [] -> url (raid_info s) <> None
}.

(** The lines left once a turn block is read: those after the first line
    equal to [end], none when there is no such line. *)
Fixpoint after_end (lines : list string) : list string :=
  match lines with
  | [] => []
  | line :: lines' => if String.eqb line "end" then lines' else after_end lines'
  end.

(** A line of a turn block that none of the branches of [_parse_turn]
    recognises. *)
Definition plain (line : string) : bool :=
  negb (Str.startswith line "character" || Str.startswith line "wait" ||
        Str.startswith line "summon" || String.eqb line "attack" ||
        String.eqb line "enablefullauto" || String.eqb line "end").

(** A line at the front of the script that none of the four steps of a
    pass takes. *)
Definition unrecognised (line : string) : bool :=
  negb (Str.startswith line "http" || Str.startswith line "summon:" ||
        Str.startswith line "repeat:" || Str.startswith line "turn").

(** An index the parser accepts, counted from 0. *)
Definition below (n i : Z) : Prop := (0 <= i < n)%Z.

(** [chain_run a acts b]: [acts] is a sequence of skills and targets with
    indices in range in which every target comes directly after a skill;
    [a] and [b] tell whether a skill is armed before and after. *)
Inductive chain_run : bool -> list action -> bool -> Prop :=
| chain_run_nil (a : bool) : chain_run a [] a
| chain_run_skill (a b : bool) (i : Z) (acts : list action) :
    below 4 i -> chain_run true acts b ->
    chain_run a (useskill i :: acts) b
| chain_run_target (b : bool) (i : Z) (acts : list action) :
    below 6 i -> chain_run false acts b ->
    chain_run true (target i :: acts) b.

(** [turn_run a acts b]: [acts] is a sequence of actions a turn may hold;
    [a] and [b] tell whether a character is selected before and after. *)
Inductive turn_run : bool -> list action -> bool -> Prop :=
| turn_run_nil (a : bool) : turn_run a [] a
| turn_run_select (b : bool) (i : Z) (acts : list action) :
    below 4 i -> turn_run true acts b ->
    turn_run false (selectchar i :: acts) b
| turn_run_change (b : bool) (i : Z) (acts : list action) :
    below 4 i -> turn_run true acts b ->
    turn_run true (changechar i :: acts) b
| turn_run_skill (b : bool) (i : Z) (acts : list action) :
    below 4 i -> turn_run true acts b ->
    turn_run true (useskill i :: acts) b
| turn_run_target (b : bool) (i : Z) (acts : list action) :
    below 6 i -> turn_run true acts b ->
    turn_run true (target i :: acts) b
| turn_run_wait (a b : bool) (time : Z) (acts : list action) :
    turn_run a acts b -> turn_run a (wait time :: acts) b
| turn_run_summon (b : bool) (i : Z) (acts : list action) :
    below 6 i -> turn_run false acts b ->
    turn_run false (usesummon i :: acts) b
| turn_run_attack (a b : bool) (acts : list action) :
    turn_run false acts b -> turn_run a (Pair "attack" :: acts) b
| turn_run_fullauto (b : bool) (acts : list action) :
    turn_run false acts b ->
    turn_run false (Entry "enablefullauto" [] :: acts) b
| turn_run_plain (a b : bool) (line : string) (acts : list action) :
    plain line = true -> turn_run a acts b ->
    turn_run a (Entry line [] :: acts) b.

(** [text] is what is left of [script] after some of its first lines. *)
Definition suffix_of (text script : list string) : Prop :=
  exists used, script = used ++ text.

(** The call raises no [IndexError]. *)
Definition in_bounds {A : Type} (m : outcome A) : Prop := m <> Raise IndexError.

(** [d] is the mapping one call of [_parse_combact] returns, on the lines
    of [script] from some line on. *)
Definition one_run (script : list string) (d : turns) : Prop :=
  exists text rest, suffix_of text script /\ _parse_combact text = Ok (rest, d).

(** The repeat count, when there is one, is a single digit. *)
Definition repeat_ok (i : info) : Prop :=
  forall n, repeat i = Some n -> below 10 n.

(** What every pass of the loop of [parse_raids] keeps, for the turn
    mappings and repeat counts of the raids of [script]. *)
Record tidy (script : list string) (s : locals) : Prop := {
  tidy_remain : suffix_of (remain_txt s) script;
  tidy_now : one_run script (combact_actions s);
  tidy_done :
    Forall (fun kr => one_run script (combact_actions_of (snd kr)))
      (list_of_raids s);
  tidy_repeat : repeat_ok (raid_info s);
  tidy_repeats :
    Forall (fun kr => repeat_ok (raid_info_of (snd kr))) (list_of_raids s)
}.

(** One raid of a script written in the order the passes of [parse_raids]
    read it: the URL line, then at most one [summon:] line, then at most
    one [repeat:] line, then the turn blocks.  [sec_summon] and
    [sec_repeat] hold the line and what it stands for, [sec_turns] the
    mapping of the turn blocks. *)
Record section : Type := mk_section {
  sec_url : string;
  sec_summon : option (string * string);
  sec_repeat : option (string * Z);
  sec_run : list string;
  sec_turns : turns
}.

Definition line_of {A : Type} (field : option (string * A)) : list string :=
  match field with Some (line, _) => [line] | None => [] end.

Definition value_of {A : Type} (field : option (string * A)) : option A :=
  match field with Some (_, a) => Some a | None => None end.

Definition sec_lines (sec : section) : list string :=
  sec_url sec :: line_of (sec_summon sec) ++ line_of (sec_repeat sec) ++
  sec_run sec.

Definition script_of (secs : list section) : list string :=
  concat (map sec_lines secs).

(** The raid block the section stands for. *)
Definition sec_raid (sec : section) : raid :=
  mk_raid (mk_info (Some (sec_url sec)) (value_of (sec_summon sec))
             (value_of (sec_repeat sec)))
    (sec_turns sec).

(** Every line of every section is what the step meant for it reads, and
    the turn blocks of a section are one run that ends where the next
    section begins. *)
Fixpoint canonical (secs : list section) : Prop :=
  match secs with
  | [] => True
  | sec :: rest =>
      _parse_url [sec_url sec] = ([], Some (sec_url sec)) /\
      (forall line name, sec_summon sec = Some (line, name) ->
                         _parse_summon [line] = Ok ([], Some name)) /\
      (forall line n, sec_repeat sec = Some (line, n) ->
                      _parse_repeat [line] = Ok ([], Some n)) /\
      _parse_combact (sec_run sec ++ script_of rest)
      = Ok (script_of rest, sec_turns sec) /\
      canonical rest
  end.

(** The line at the front of the lines to come, if any, is a URL. *)
Definition url_next (next : list string) : Prop :=
  match next with
  | [] => True
  | line :: _ => Str.startswith line "http" = true
  end.

(** The state after the pass over a section. *)
Definition after_section (s : locals) (sec : section) (next : list string)
  : locals :=
  with_actions (sec_turns sec)
    (with_remain next
       (on_repeat (value_of (sec_repeat sec))
          (on_summon (value_of (sec_summon sec))
             (on_url (Some (sec_url sec)) s)))).

(** The entries [(n + 1, r1), (n + 2, r2), ...]. *)
Fixpoint numbered_from (n : nat) (raids : list raid) : Dict.t raid :=
  match raids with
  | [] => []
  | r :: raids => (Z.of_nat (S n), r) :: numbered_from (S n) raids
  end.

(** The script of [unit_test/test_parser.py] and its expected result. *)
Definition test_case : list string :=
  [ "// This script starts Semi-Auto mode on Turn 1.";
    "// It will go uninterrupted until either the party wipes or the quest/raid ends.";
    ""; "";
    "https://game.granbluefantasy.jp/#quest/supporter/800021/22";
    "summon:Kaguya";
    "repeat:1";
    "";
    "Turn 1:";
    "   quickSummon";
    "   subBack";
    "End";
    "";
    "https://game.granbluefantasy.jp/#quest/supporter/800021/22";
    "suRmmon:Kaguya";
    "";
    "Turn 5:";
    "quickSummon";
    "character1.useSkill(2).useSkill(4)";
    "subBack";
    "End" ].

Definition test_result : Dict.t raid :=
  [ (1%Z, mk_raid
       (mk_info (Some "https://game.granbluefantasy.jp/#quest/supporter/800021/22")
                (Some "kaguya") (Some 1%Z))
       [ (1%Z, [Entry "quicksummon" []; Entry "subback" []]) ]);
    (2%Z, mk_raid
       (mk_info (Some "https://game.granbluefantasy.jp/#quest/supporter/800021/22")
                None None)
       [ (5%Z, [Entry "quicksummon" []; selectchar 0; useskill 1; useskill 3;
                Entry "subback" []]) ]) ].

Example test_parser_passes : parse_raids test_case = Ok test_result.
Proof. vm_compute. reflexivity. Qed.

(** ** Facts about strings *)

Module StrFacts.
Import Str.

Ltac each_char c := destruct c as [[] [] [] [] [] [] [] []].

Lemma isspace_lower_char (c : ascii) : isspace (lower_char c) = isspace c.
Proof. each_char c; reflexivity. Qed.

Lemma lower_char_idem (c : ascii) : lower_char (lower_char c) = lower_char c.
Proof. each_char c; reflexivity. Qed.

Lemma lower_char_hash (c : ascii) :
  Ascii.eqb (lower_char c) "#" = Ascii.eqb c "#".
Proof. each_char c; reflexivity. Qed.

Lemma lower_char_slash (c : ascii) :
  Ascii.eqb (lower_char c) "/" = Ascii.eqb c "/".
Proof. each_char c; reflexivity. Qed.

Lemma lower_idem (s : string) : lower (lower s) = lower s.
Proof.
  induction s as [|c s IH]; simpl; [reflexivity|].
  now rewrite lower_char_idem, IH.
Qed.

Lemma lstrip_lower (s : string) : lstrip (lower s) = lower (lstrip s).
Proof.
  induction s as [|c s IH]; simpl; [reflexivity|].
  rewrite isspace_lower_char. destruct (isspace c); [exact IH | reflexivity].
Qed.

Lemma rstrip_lower (s : string) : rstrip (lower s) = lower (rstrip s).
Proof.
  induction s as [|c s IH]; simpl; [reflexivity|].
  rewrite IH, isspace_lower_char.
  destruct (rstrip s); simpl; [destruct (isspace c)|]; reflexivity.
Qed.

Lemma strip_lower (s : string) : strip (lower s) = lower (strip s).
Proof. unfold strip. now rewrite lstrip_lower, rstrip_lower. Qed.

Lemma lower_empty (s : string) : String.eqb (lower s) "" = String.eqb s "".
Proof. destruct s; reflexivity. Qed.

Lemma startswith_lower_hash (s : string) :
  startswith (lower s) "#" = startswith s "#".
Proof.
  destruct s as [|c s]; cbn [lower startswith]; [reflexivity|].
  rewrite lower_char_hash. reflexivity.
Qed.

Lemma startswith_lower_slash (s : string) :
  startswith (lower s) "/" = startswith s "/".
Proof.
  destruct s as [|c s]; cbn [lower startswith]; [reflexivity|].
  rewrite lower_char_slash. reflexivity.
Qed.

Lemma lstrip_headed (s : string) : headed (lstrip s).
Proof.
  induction s as [|c s IH]; simpl; [exact I|].
  destruct (isspace c) eqn:E; [exact IH | exact E].
Qed.

Lemma headed_lstrip (s : string) : headed s -> lstrip s = s.
Proof. destruct s as [|c s]; simpl; [reflexivity|]. now intros ->. Qed.

Lemma rstrip_headed (s : string) : headed s -> headed (rstrip s).
Proof.
  destruct s as [|c s]; simpl; [trivial|]. intros H.
  destruct (rstrip s); [rewrite H|]; exact H.
Qed.

Lemma rstrip_idem (s : string) : rstrip (rstrip s) = rstrip s.
Proof.
  induction s as [|c s IH]; simpl; [reflexivity|].
  destruct (rstrip s) as [|c' r] eqn:E.
  - destruct (isspace c) eqn:Ec; simpl; [reflexivity | now rewrite Ec].
  - change (rstrip (String c (String c' r))) with
      (match rstrip (String c' r) with
       | EmptyString => if isspace c then EmptyString else String c EmptyString
       | r0 => String c r0
       end).
    now rewrite IH.
Qed.

Lemma strip_headed (s : string) : headed (strip s).
Proof. apply rstrip_headed, lstrip_headed. Qed.

Lemma lstrip_strip (s : string) : lstrip (strip s) = strip s.
Proof. apply headed_lstrip, strip_headed. Qed.

Lemma strip_idem (s : string) : strip (strip s) = strip s.
Proof.
  unfold strip at 1. rewrite lstrip_strip. unfold strip. apply rstrip_idem.
Qed.

Lemma rstrip_strip (s : string) : rstrip (strip s) = strip s.
Proof. unfold strip. apply rstrip_idem. Qed.

Lemma split_cons (sep : ascii) (s : string) :
  exists t, split sep s = before sep s :: t.
Proof.
  induction s as [|c s [t IH]]; cbn [split before]; [now exists []|].
  destruct (Ascii.eqb c sep); [now eexists|]. rewrite IH. now eexists.
Qed.

Lemma split_app_sep (sep : ascii) (a b : string) :
  split sep (a ++ String sep b)%string = split sep a ++ split sep b.
Proof.
  induction a as [|c a IH]; cbn [append split app].
  - now rewrite Ascii.eqb_refl.
  - rewrite IH. destruct (Ascii.eqb c sep); [reflexivity|].
    destruct (split_cons sep a) as [t ->]. reflexivity.
Qed.

Lemma split_without_sep (sep : ascii) (s : string) :
  has sep s = false -> split sep s = [s].
Proof.
  induction s as [|c s IH]; cbn [has split]; [reflexivity|].
  intros H. apply orb_false_iff in H. destruct H as [-> H].
  now rewrite (IH H).
Qed.

Lemma startswith_app (s p : string) :
  startswith s p = true -> s = (p ++ drop (String.length p) s)%string.
Proof.
  revert s. induction p as [|a p IH]; intros s; [reflexivity|].
  destruct s as [|b s]; cbn [startswith]; [discriminate|].
  intros H. apply andb_true_iff in H. destruct H as [Hb Hp].
  apply Ascii.eqb_eq in Hb. subst b.
  cbn [String.length drop append]. now rewrite <- (IH s Hp).
Qed.

Lemma startswith_target_not_useskill (s : string) :
  startswith s "target" = true -> startswith s "useskill" = false.
Proof.
  destruct s as [|c s]; [discriminate|]. cbn [startswith].
  destruct (Ascii.eqb_spec c "t") as [->|]; [reflexivity | discriminate].
Qed.

End StrFacts.

(** ** The preprocessor *)

Module PreParse.
Import Str StrFacts.

Lemma normalize_fixed (raw : string) :
  let line := lower (strip raw) in
  lstrip line = line /\ lower (strip line) = line.
Proof.
  cbv zeta. split.
  - now rewrite lstrip_lower, lstrip_strip.
  - now rewrite strip_lower, strip_idem, lower_idem.
Qed.

Lemma drops_normalized (raw : string) :
  let line := lower (strip raw) in
  String.eqb line "" || startswith line "#" || startswith line "/" = drops raw.
Proof.
  cbv zeta. unfold drops.
  now rewrite lower_empty, startswith_lower_hash, startswith_lower_slash.
Qed.

Lemma pre_parse_cons (raw : string) (text : list string) :
  pre_parse (raw :: text) =
  if drops raw then pre_parse text else normalize raw :: pre_parse text.
Proof.
  cbn [pre_parse]. rewrite drops_normalized.
  destruct (drops raw); [reflexivity|].
  unfold normalize. now rewrite (proj1 (normalize_fixed raw)).
Qed.

Lemma drops_normalize (raw : string) : drops (normalize raw) = drops raw.
Proof.
  unfold normalize. rewrite <- (drops_normalized (lower (strip raw))).
  cbv zeta. rewrite (proj2 (normalize_fixed raw)). apply drops_normalized.
Qed.

Lemma normalize_idem (raw : string) : normalize (normalize raw) = normalize raw.
Proof. unfold normalize. apply normalize_fixed. Qed.

Lemma pre_parse_idem (text : list string) :
  pre_parse (pre_parse text) = pre_parse text.
Proof.
  induction text as [|raw text IH]; [reflexivity|].
  rewrite pre_parse_cons. destruct (drops raw) eqn:E; [exact IH|].
  rewrite pre_parse_cons, drops_normalize, E, normalize_idem. now rewrite IH.
Qed.

End PreParse.

(** ** Outcomes: inversion and halting *)

Module OutcomeFacts.

Lemma bind_Ok {A B : Type} (m : outcome A) (k : A -> outcome B) (b : B) :
  bind m k = Ok b -> exists a, m = Ok a /\ k a = Ok b.
Proof. destruct m; simpl; intros H; try discriminate. now exists a. Qed.

Lemma halts_bind {A B : Type} (m : outcome A) (k : A -> outcome B) :
  halts m -> (forall a, m = Ok a -> halts (k a)) -> halts (bind m k).
Proof.
  unfold halts. destruct m; simpl; intros Hm Hk.
  - now apply Hk.
  - discriminate.
  - now elim Hm.
Qed.

Lemma halts_Ok {A : Type} (a : A) : halts (Ok a).
Proof. discriminate. Qed.

Lemma halts_Raise {A : Type} (e : exn) : halts (@Raise A e).
Proof. discriminate. Qed.

End OutcomeFacts.

Create HintDb halts.
#[export] Hint Resolve OutcomeFacts.halts_Ok OutcomeFacts.halts_Raise : halts.

(** Splits a hypothesis [bind m k = Ok b] into its two halves. *)
Ltac bind_inv H :=
  let a := fresh "a" in
  let Ha := fresh "Ha" in
  apply OutcomeFacts.bind_Ok in H; destruct H as (a & Ha & H).

(** ** The helpers consume a prefix of their input and always halt *)

Module Consume.
Import OutcomeFacts.

Lemma int_halts (s : string) : halts (Str.int s).
Proof.
  unfold Str.int.
  destruct (Str.int_rskip (Str.int_lskip s)) as [|c r]; cbv zeta.
  - simpl. auto with halts.
  - destruct (match c with
              | "+"%char => (1%Z, r)
              | "-"%char => ((-1)%Z, r)
              | _ => (1%Z, String c r)
              end) as [sign body].
    destruct (Str.digits 0 false body); auto with halts.
Qed.

Lemma index_from_end_halts (s : string) (k : nat) :
  halts (Str.index_from_end s k).
Proof.
  unfold Str.index_from_end.
  destruct (String.length s <? k)%nat; auto with halts.
  destruct (String.get _ s); auto with halts.
Qed.

#[local] Hint Resolve int_halts index_from_end_halts : halts.

Ltac halts_step :=
  match goal with
  | |- halts (bind _ _) => apply halts_bind; [|intros ? ?]
  | |- halts (if ?b then _ else _) => destruct b
  | |- halts (match ?x with (_, _) => _ end) => destruct x
  | |- halts deselectchar_display => apply halts_Raise
  | |- _ => solve [auto with halts]
  end.

Lemma chain_cmd_halts (cmd : string) (st : list action * bool) :
  halts (chain_cmd cmd st).
Proof. unfold chain_cmd. destruct st. repeat halts_step. Qed.

Lemma chain_loop_halts (chains : list string) (st : list action * bool) :
  halts (chain_loop chains st).
Proof.
  revert st. induction chains as [|cmd chains IH]; intros st; simpl.
  - auto with halts.
  - apply halts_bind; [apply chain_cmd_halts | intros; apply IH].
Qed.

Lemma _parse_character_halts (line : string) (sel : bool) :
  halts (_parse_character line sel).
Proof.
  unfold _parse_character. destruct (Str.split "." line); [auto with halts|].
  repeat halts_step. apply chain_loop_halts.
Qed.

#[local] Hint Resolve _parse_character_halts : halts.

Lemma turn_loop_halts (remain : list string) (sel : bool) (acc : list action) :
  halts (turn_loop remain sel acc).
Proof.
  revert sel acc. induction remain as [|line remain IH]; intros sel acc;
    cbn [turn_loop]; [auto with halts|].
  repeat halts_step; auto with halts.
Qed.

Lemma turn_loop_suffix (remain : list string) (sel : bool)
    (acc : list action) (rest : list string) (acts : list action) :
  turn_loop remain sel acc = Ok (rest, acts) ->
  exists used, remain = used ++ rest.
Proof.
  revert sel acc. induction remain as [|line remain IH]; intros sel acc;
    cbn [turn_loop]; intros H.
  - injection H as <- _. now exists [].
  - assert (K : forall sel' acc', turn_loop remain sel' acc' = Ok (rest, acts) ->
                exists used, line :: remain = used ++ rest).
    { intros sel' acc' H'. destruct (IH _ _ H') as [used ->].
      now exists (line :: used). }
    repeat match type of H with
           | (if ?b then _ else _) = _ => destruct b
           | bind _ _ = Ok _ => bind_inv H
           end; eauto; try discriminate.
    injection H as <- _. now exists [line].
Qed.

Lemma _parse_turn_halts (text : list string) : halts (_parse_turn text).
Proof.
  unfold _parse_turn. destruct text; [auto with halts|].
  repeat halts_step. apply turn_loop_halts.
Qed.

Lemma _parse_turn_suffix (text rest : list string) (turn : Z)
    (acts : list action) :
  _parse_turn text = Ok (rest, turn, acts) ->
  exists first used, text = first :: used ++ rest.
Proof.
  unfold _parse_turn. destruct text as [|first remain]; [discriminate|].
  intros H. bind_inv H. bind_inv H. bind_inv H. destruct a1 as [r c].
  injection H as -> _ ->.
  destruct (turn_loop_suffix _ _ _ _ _ Ha1) as [used ->]. now exists first, used.
Qed.

Lemma combact_loop_halts (fuel : nat) (remain : list string) (acc : turns) :
  (List.length remain < fuel)%nat -> halts (combact_loop fuel remain acc).
Proof.
  revert remain acc. induction fuel as [|fuel IH]; intros remain acc Hf;
    [lia|]. cbn [combact_loop].
  destruct remain as [|line remain]; [auto with halts|].
  destruct (Str.startswith line "turn"); [|auto with halts].
  apply halts_bind; [apply _parse_turn_halts|].
  intros [[rest turn] acts] E. apply IH.
  destruct (_parse_turn_suffix _ _ _ _ E) as (first & used & E').
  apply (f_equal (@List.length string)) in E'.
  cbn [List.length] in *. rewrite length_app in E'. lia.
Qed.

Lemma combact_loop_suffix (fuel : nat) (remain : list string) (acc : turns)
    (rest : list string) (d : turns) :
  combact_loop fuel remain acc = Ok (rest, d) ->
  exists used, remain = used ++ rest.
Proof.
  revert remain acc. induction fuel as [|fuel IH]; intros remain acc;
    cbn [combact_loop]; [discriminate|].
  destruct remain as [|line remain].
  - intros H. injection H as <- _. now exists [].
  - destruct (Str.startswith line "turn").
    + intros H. bind_inv H. destruct a as [[r turn] acts].
      destruct (_parse_turn_suffix _ _ _ _ Ha) as (first & used & ->).
      destruct (IH _ _ H) as [used' ->].
      exists (first :: used ++ used'). cbn. now rewrite app_assoc.
    + intros H. injection H as <- _. now exists [].
Qed.

Lemma combact_loop_more_fuel (fuel fuel' : nat) (remain : list string)
    (acc : turns) (r : list string * turns) :
  combact_loop fuel remain acc = Ok r -> (fuel <= fuel')%nat ->
  combact_loop fuel' remain acc = Ok r.
Proof.
  revert fuel' remain acc. induction fuel as [|fuel IH];
    intros fuel' remain acc; cbn [combact_loop]; [discriminate|].
  intros H Hf. destruct fuel' as [|fuel']; [lia|]. cbn [combact_loop].
  destruct remain as [|line remain]; [exact H|].
  destruct (Str.startswith line "turn"); [|exact H].
  bind_inv H. rewrite Ha. cbn [bind]. destruct a as [[rest turn] acts].
  apply IH; [exact H | lia].
Qed.

Lemma _parse_combact_halts (text : list string) : halts (_parse_combact text).
Proof.
  unfold _parse_combact. destruct text; [auto with halts|].
  apply combact_loop_halts. lia.
Qed.

Lemma _parse_combact_suffix (text rest : list string) (d : turns) :
  _parse_combact text = Ok (rest, d) -> exists used, text = used ++ rest.
Proof.
  unfold _parse_combact. destruct text as [|line text].
  - intros H. injection H as <- _. now exists [].
  - apply combact_loop_suffix.
Qed.

End Consume.

(** ** One pass of the raid loop *)

Module Cycle.
Import OutcomeFacts Consume.

Lemma _parse_url_cases (txt rest : list string) (u : option string) :
  _parse_url txt = (rest, u) ->
  (rest = txt /\ u = None) \/
  (exists line, txt = line :: rest /\ u = Some line /\
                Str.startswith line "http" = true).
Proof.
  unfold _parse_url. destruct txt as [|line txt].
  - intros H. injection H as <- <-. now left.
  - destruct (Str.startswith line "http") eqn:E; cbn [negb];
      intros H; injection H as <- <-; [right | now left].
    now exists line.
Qed.

Lemma _parse_summon_cases (txt rest : list string) (sm : option string) :
  _parse_summon txt = Ok (rest, sm) ->
  (rest = txt /\ sm = None) \/
  (exists line name, txt = line :: rest /\ sm = Some name /\
                     Str.startswith line "summon:" = true).
Proof.
  unfold _parse_summon. destruct txt as [|line txt].
  - intros H. injection H as <- <-. now left.
  - destruct (Str.startswith line "summon:") eqn:E; cbn [negb].
    + destruct (Str.split ":" line) as [|? [|name ?]]; try discriminate.
      intros H. injection H as <- <-. right. now exists line, name.
    + intros H. injection H as <- <-. now left.
Qed.

Lemma _parse_repeat_cases (txt rest : list string) (rp : option Z) :
  _parse_repeat txt = Ok (rest, rp) ->
  (rest = txt /\ rp = None) \/
  (exists line n, txt = line :: rest /\ rp = Some n /\
                  Str.startswith line "repeat:" = true).
Proof.
  unfold _parse_repeat. destruct txt as [|line txt].
  - intros H. injection H as <- <-. now left.
  - destruct (Str.startswith line "repeat:") eqn:E; cbn [negb].
    + intros H. bind_inv H. bind_inv H. injection H as <- <-.
      right. now exists line, a0.
    + intros H. injection H as <- <-. now left.
Qed.

Lemma _parse_summon_halts (txt : list string) : halts (_parse_summon txt).
Proof.
  unfold _parse_summon. destruct txt as [|line txt]; [auto with halts|].
  destruct (negb _); [auto with halts|].
  destruct (Str.split ":" line) as [|? [|? ?]]; auto with halts.
Qed.

Lemma _parse_repeat_halts (txt : list string) : halts (_parse_repeat txt).
Proof.
  unfold _parse_repeat. destruct txt as [|line txt]; [auto with halts|].
  destruct (negb _); [auto with halts|].
  apply halts_bind; [apply index_from_end_halts | intros c _].
  apply halts_bind; [apply int_halts | auto with halts].
Qed.

Lemma pop_first_halts (s : locals) : halts (pop_first s).
Proof. unfold pop_first. destruct (remain_txt s); auto with halts. Qed.

Lemma remain_on_url (u : option string) (s : locals) :
  remain_txt (on_url u s) = remain_txt s.
Proof.
  unfold on_url. destruct u; [|reflexivity].
  destruct (url (raid_info s)); reflexivity.
Qed.

Lemma remain_on_summon (sm : option string) (s : locals) :
  remain_txt (on_summon sm s) = remain_txt s.
Proof. destruct sm; reflexivity. Qed.

Lemma remain_on_repeat (rp : option Z) (s : locals) :
  remain_txt (on_repeat rp s) = remain_txt s.
Proof. destruct rp; reflexivity. Qed.

Lemma cycle_shape (s s' : locals) :
  cycle s = Ok s' ->
  exists r1 u r2 sm r3 rp r4 acts,
    _parse_url (remain_txt s) = (r1, u) /\
    _parse_summon r1 = Ok (r2, sm) /\
    _parse_repeat r2 = Ok (r3, rp) /\
    _parse_combact r3 = Ok (r4, acts) /\
    let s4 := before_pop s r1 u r2 sm r3 rp r4 acts in
    ((List.length (remain_txt s) = List.length r4 /\ pop_first s4 = Ok s') \/
     (List.length (remain_txt s) <> List.length r4 /\ s' = s4)).
Proof.
  unfold cycle. destruct (_parse_url (remain_txt s)) as [r1 u] eqn:Eu.
  rewrite remain_on_url. cbn [remain_txt with_remain].
  intros H. bind_inv H. destruct a as [r2 sm].
  rewrite remain_on_summon in H. cbn [remain_txt with_remain] in H.
  bind_inv H. destruct a as [r3 rp].
  rewrite remain_on_repeat in H. cbn [remain_txt with_remain] in H.
  bind_inv H. destruct a as [r4 acts].
  cbn [remain_txt with_remain with_actions] in H.
  exists r1, u, r2, sm, r3, rp, r4, acts.
  repeat (split; [first [assumption | reflexivity]|]).
  cbv zeta. destruct (Nat.eqb_spec (List.length (remain_txt s)) (List.length r4)).
  - left. split; [assumption|]. exact H.
  - right. split; [assumption|]. now injection H as <-.
Qed.

Lemma cycle_consumes (s s' : locals) :
  cycle s = Ok s' ->
  exists used, used <> [] /\ remain_txt s = used ++ remain_txt s'.
Proof.
  intros H. apply cycle_shape in H.
  destruct H as (r1 & u & r2 & sm & r3 & rp & r4 & acts & Hu & Hs & Hr & Hc & H).
  assert (E1 : exists u1, remain_txt s = u1 ++ r1).
  { destruct (_parse_url_cases _ _ _ Hu) as [[-> _]|(l & -> & _)];
      [now exists [] | now exists [l]]. }
  assert (E2 : exists u2, r1 = u2 ++ r2).
  { destruct (_parse_summon_cases _ _ _ Hs) as [[-> _]|(l & ? & -> & _)];
      [now exists [] | now exists [l]]. }
  assert (E3 : exists u3, r2 = u3 ++ r3).
  { destruct (_parse_repeat_cases _ _ _ Hr) as [[-> _]|(l & ? & -> & _)];
      [now exists [] | now exists [l]]. }
  destruct (_parse_combact_suffix _ _ _ Hc) as [u4 E4].
  destruct E1 as [u1 E1], E2 as [u2 E2], E3 as [u3 E3].
  assert (E : remain_txt s = (u1 ++ u2 ++ u3 ++ u4) ++ r4).
  { rewrite E1, E2, E3, E4. now rewrite <- !app_assoc. }
  cbv zeta in H. destruct H as [[Hl Hp] | [Hl ->]].
  - assert (N : u1 ++ u2 ++ u3 ++ u4 = []).
    { apply (f_equal (@List.length string)) in E. rewrite length_app in E.
      apply length_zero_iff_nil. lia. }
    rewrite N in E. cbn [app] in E.
    unfold pop_first, before_pop in Hp. cbn [remain_txt with_actions with_remain] in Hp.
    destruct r4 as [|line r4]; [discriminate|]. injection Hp as <-.
    exists [line]. split; [discriminate|]. exact E.
  - exists (u1 ++ u2 ++ u3 ++ u4). split; [|exact E].
    intros N. rewrite N in E. cbn [app] in E. now rewrite E in Hl.
Qed.

Lemma cycle_shortens (s s' : locals) :
  cycle s = Ok s' ->
  (List.length (remain_txt s') < List.length (remain_txt s))%nat.
Proof.
  intros H. destruct (cycle_consumes _ _ H) as (used & N & E).
  rewrite E, length_app. destruct used; [contradiction|]. cbn. lia.
Qed.

Lemma cycle_halts (s : locals) : halts (cycle s).
Proof.
  unfold cycle. destruct (_parse_url (remain_txt s)) as [r1 u].
  apply halts_bind; [apply _parse_summon_halts | intros [r2 sm] _].
  apply halts_bind; [apply _parse_repeat_halts | intros [r3 rp] _].
  apply halts_bind; [apply _parse_combact_halts | intros [r4 acts] _].
  destruct (_ =? _)%nat; [apply pop_first_halts | auto with halts].
Qed.

Lemma raids_loop_halts (fuel : nat) (s : locals) :
  (List.length (remain_txt s) <= fuel)%nat -> halts (raids_loop fuel s).
Proof.
  revert s. induction fuel as [|fuel IH]; intros s Hf.
  - destruct (remain_txt s) eqn:E; [|cbn in Hf; lia].
    unfold raids_loop. rewrite E. auto with halts.
  - cbn [raids_loop]. destruct (remain_txt s) eqn:E; [auto with halts|].
    apply halts_bind; [apply cycle_halts|]. intros s' Hs'. apply IH.
    apply cycle_shortens in Hs'. rewrite E in Hs'. cbn in *. lia.
Qed.

Lemma parse_raids_halts (txt : list string) : halts (parse_raids txt).
Proof.
  unfold parse_raids.
  apply halts_bind; [apply raids_loop_halts; reflexivity | auto with halts].
Qed.

(** A pass that finds none of the four kinds of line at the front. *)
Lemma cycle_unrecognized (s : locals) (line : string) (rest : list string) :
  remain_txt s = line :: rest ->
  Str.startswith line "http" = false ->
  Str.startswith line "summon:" = false ->
  Str.startswith line "repeat:" = false ->
  Str.startswith line "turn" = false ->
  cycle s = Ok (with_actions Dict.empty (with_remain rest s)).
Proof.
  intros E Hu Hs Hr Ht. unfold cycle. rewrite E.
  cbn [_parse_url]. rewrite Hu. cbn [negb on_url remain_txt with_remain].
  cbn [_parse_summon]. rewrite Hs.
  cbn [negb bind on_summon remain_txt with_remain].
  cbn [_parse_repeat]. rewrite Hr.
  cbn [negb bind on_repeat remain_txt with_remain].
  cbn [_parse_combact combact_loop]. rewrite Ht.
  cbn [bind remain_txt with_remain with_actions].
  rewrite Nat.eqb_refl. reflexivity.
Qed.

End Cycle.

(** ** Properties of the compiler *)

(** C6, as amended.  [pre_parse] leaves a line out if and only if, once
    trimmed, it is empty or starts with [#] or with [/] (one slash is
    enough); every other line appears in the output trimmed at both ends
    and lower-cased, in input order.  [pre_parse] is a total function: it
    has no failing case. *)
Theorem pre_parse_keeps_and_normalizes (text : list string) :
  pre_parse text = map normalize (filter (fun raw => negb (drops raw)) text) /\
  Forall (fun line => Str.lstrip line = line /\ Str.rstrip line = line /\
                      Str.lower line = line) (pre_parse text).
Proof.
  induction text as [|raw text [IH1 IH2]]; [split; [reflexivity | constructor]|].
  rewrite PreParse.pre_parse_cons. cbn [filter].
  destruct (drops raw); cbn [negb map]; [now split|].
  split; [now rewrite IH1|]. constructor; [|exact IH2].
  unfold normalize. repeat split.
  - now rewrite StrFacts.lstrip_lower, StrFacts.lstrip_strip.
  - now rewrite StrFacts.rstrip_lower, StrFacts.rstrip_strip.
  - apply StrFacts.lower_idem.
Qed.

(** C6, as the specification states it, fails: a line that starts with a
    single slash is left out although it does not start with [//]. *)
Lemma pre_parse_drops_single_slash :
  exists raw : string, pre_parse [raw] = [] /\ spec_drops raw = false.
Proof. exists "/attack". split; reflexivity. Qed.

(** C9.  The preprocessor is idempotent, and compiling its output gives the
    same outcome as compiling the raw input (the same script when
    compilation succeeds, and the same exception when it does not). *)
Theorem compile_preprocessed_same (txt : list string) :
  pre_parse (pre_parse txt) = pre_parse txt /\
  parse_raids (pre_parse txt) = parse_raids txt.
Proof.
  split; [apply PreParse.pre_parse_idem|].
  unfold parse_raids, start. now rewrite PreParse.pre_parse_idem.
Qed.

(** C8.  The loop of [parse_raids] terminates on every input: a pass that
    does not raise leaves strictly fewer lines; a pass whose front line is
    of none of the four recognised kinds removes exactly that line; and
    [parse_raids], run with as many passes as there are lines, returns or
    raises. *)
Theorem raid_loop_terminates :
  (forall s s' : locals,
      cycle s = Ok s' ->
      (List.length (remain_txt s') < List.length (remain_txt s))%nat) /\
  (forall (s : locals) (line : string) (rest : list string),
      remain_txt s = line :: rest ->
      Str.startswith line "http" = false ->
      Str.startswith line "summon:" = false ->
      Str.startswith line "repeat:" = false ->
      Str.startswith line "turn" = false ->
      exists s', cycle s = Ok s' /\ remain_txt s' = rest) /\
  (forall txt : list string, halts (parse_raids txt)).
Proof.
  split; [exact Cycle.cycle_shortens|]. split; [|exact Cycle.parse_raids_halts].
  intros s line rest E Hu Hs Hr Ht.
  rewrite (Cycle.cycle_unrecognized s line rest E Hu Hs Hr Ht).
  eexists. split; reflexivity.
Qed.

Lemma raid_loop_terminates_witness :
  let s := start ["surmmon:kaguya"; "attack"] in
  exists s', cycle s = Ok s' /\ remain_txt s' = ["attack"] /\
             (List.length (remain_txt s') < List.length (remain_txt s))%nat.
Proof.
  cbv zeta.
  destruct (proj1 (proj2 raid_loop_terminates)
              (start ["surmmon:kaguya"; "attack"]) "surmmon:kaguya" ["attack"]
              eq_refl eq_refl eq_refl eq_refl eq_refl) as (s' & Hc & Hr).
  exists s'. split; [exact Hc|]. split; [exact Hr|].
  exact (proj1 raid_loop_terminates _ _ Hc).
Defined.

(** C1 does not hold of the code.  The specification has the actions of
    every turn block merged into the raid in progress; every pass assigns the
    result of [_parse_combact] to [combact_actions], also when no turn
    block stands at the front, so the turn blocks of the earlier passes
    are lost: here turn 1 is gone once [summon:] has been read, and once an
    unrecognised line has been dropped. *)
Theorem turn_blocks_overwritten :
  parse_raids ["http://raid"; "turn 1:"; "attack"; "end"; "summon:kaguya"]
  = Ok [(1%Z, mk_raid (mk_info (Some "http://raid") (Some "kaguya") None) [])]
  /\
  parse_raids ["http://raid"; "turn 1:"; "attack"; "end"; "oops";
               "turn 2:"; "attack"; "end"]
  = Ok [(1%Z, mk_raid (mk_info (Some "http://raid") None None)
                 [(2%Z, [Pair "attack"])])].
Proof. split; vm_compute; reflexivity. Qed.

(** C2 does not hold of the code.  The specification has a summon line
    after a selected character emit the deselection and then the summon.
    With a character selected, the summon branch builds
    [{"deselectchar", {}}], which raises [TypeError]; and the line [summon3]
    does not reach that point, because the index is read from the last
    character but one.  With no character selected the branch works. *)
Theorem summon_after_character_raises :
  _parse_turn ["turn 1:"; "character1.useskill(2)"; "summon(3)";
               "character2"; "end"]
  = Raise TypeError_unhashable /\
  _parse_turn ["turn 1:"; "character1.useskill(2)"; "summon3";
               "character2"; "end"]
  = Raise ValueError_literal /\
  _parse_turn ["turn 1:"; "summon(3)"; "character2"; "end"]
  = Ok ([], 1%Z, [usesummon 2; selectchar 1]).
Proof. repeat split; vm_compute; reflexivity. Qed.

Lemma chain_loop_app (a b : list string) (st : list action * bool) :
  chain_loop (a ++ b) st = (st' <- chain_loop a st ;; chain_loop b st').
Proof.
  revert st. induction a as [|cmd a IH]; intros st; cbn [app chain_loop bind];
    [reflexivity|].
  destruct (chain_cmd cmd st); cbn [bind]; [apply IH | reflexivity ..].
Qed.

Lemma chain_cmd_other (cmd : string) (st : list action * bool) :
  Str.startswith cmd "useskill" = false ->
  Str.startswith cmd "target" = false ->
  chain_cmd cmd st = Ok st.
Proof. intros Hu Ht. unfold chain_cmd. destruct st. now rewrite Hu, Ht. Qed.

Lemma chain_loop_skip (a : list string) (cmd : string) (b : list string)
    (st : list action * bool) :
  Str.startswith cmd "useskill" = false ->
  Str.startswith cmd "target" = false ->
  chain_loop (a ++ cmd :: b) st = chain_loop (a ++ b) st.
Proof.
  intros Hu Ht. rewrite !chain_loop_app.
  destruct (chain_loop a st) as [st'| |]; cbn [bind chain_loop]; try reflexivity.
  now rewrite (chain_cmd_other cmd st' Hu Ht).
Qed.

(** C3, as amended.  A segment of a character chain that starts with
    neither [useskill] nor [target] is skipped: the chain compiles as if
    the segment were not there, whether it is the last segment or is
    followed by others. *)
Theorem unknown_segment_skipped (head cmd more : string) (sel : bool) :
  Str.has "." cmd = false ->
  Str.startswith cmd "useskill" = false ->
  Str.startswith cmd "target" = false ->
  _parse_character (head ++ String "." cmd)%string sel
  = _parse_character head sel /\
  _parse_character (head ++ String "." (cmd ++ String "." more))%string sel
  = _parse_character (head ++ String "." more)%string sel.
Proof.
  intros Hd Hu Ht. unfold _parse_character.
  rewrite !StrFacts.split_app_sep, (StrFacts.split_without_sep _ _ Hd).
  destruct (StrFacts.split_cons "." head) as [chains ->]. cbn [app].
  split.
  - destruct (Str.index_from_end _ 1); cbn [bind]; try reflexivity.
    destruct (Str.int a); cbn [bind]; try reflexivity.
    destruct (negb _); [reflexivity|].
    rewrite (chain_loop_skip chains cmd [] _ Hu Ht). now rewrite app_nil_r.
  - destruct (Str.index_from_end _ 1); cbn [bind]; try reflexivity.
    destruct (Str.int a); cbn [bind]; try reflexivity.
    destruct (negb _); [reflexivity|].
    now rewrite (chain_loop_skip chains cmd _ _ Hu Ht).
Qed.

Lemma unknown_segment_skipped_witness :
  _parse_character "character1.useskill(2).foo(1)" false
  = _parse_character "character1.useskill(2)" false /\
  _parse_character "character1.useskill(2).foo(1).target(3)" false
  = _parse_character "character1.useskill(2).target(3)" false.
Proof.
  exact (unknown_segment_skipped "character1.useskill(2)" "foo(1)" "target(3)"
           false eq_refl eq_refl eq_refl).
Defined.

(** C3, as the specification states it, fails: [character1.foo(1)] is not
    a parse failure, the chain compiles to the selection alone. *)
Lemma unknown_segment_no_failure :
  _parse_character "character1.foo(1)" false = Ok [selectchar 0] /\
  raises (_parse_character "character1.foo(1)" false) = false.
Proof. split; vm_compute; reflexivity. Qed.

(** C5, as amended.  A [target] segment whose index [t] lies outside 1..6
    fails with the invalid-target [ValueError], whether a skill is armed or
    not: the range check comes first.  With [t] in 1..6 the segment fails
    with the [RuntimeError] for a missing skill when none is armed, and
    otherwise emits [target] with index [t - 1] and disarms. *)
Theorem target_range_check_first (cmd c : string) (t : Z)
    (ret : list action) (armed : bool) :
  Str.startswith cmd "target" = true ->
  Str.index_from_end cmd 2 = Ok c ->
  Str.int c = Ok t ->
  (in_tuple 1 6 t = false ->
   chain_cmd cmd (ret, armed) = Raise (ValueError_target t)) /\
  (in_tuple 1 6 t = true -> armed = false ->
   chain_cmd cmd (ret, armed) = Raise RuntimeError_target) /\
  (in_tuple 1 6 t = true -> armed = true ->
   chain_cmd cmd (ret, armed) = Ok (ret ++ [target (t - 1)], false)).
Proof.
  intros Hp Hc Ht. unfold chain_cmd.
  rewrite (StrFacts.startswith_target_not_useskill cmd Hp), Hp, Hc.
  cbn [bind]. rewrite Ht. cbn [bind].
  repeat split; intros; subst; repeat
    match goal with H : in_tuple _ _ _ = _ |- _ => rewrite H end; reflexivity.
Qed.

Lemma target_range_check_first_witness :
  chain_cmd "target(9)" ([selectchar 0; useskill 1], true)
  = Raise (ValueError_target 9) /\
  chain_cmd "target(3)" ([selectchar 0], false) = Raise RuntimeError_target /\
  chain_cmd "target(3)" ([selectchar 0; useskill 1], true)
  = Ok ([selectchar 0; useskill 1] ++ [target (3 - 1)], false).
Proof.
  split; [|split].
  - exact (proj1 (target_range_check_first "target(9)" "9" 9 _ true
                    eq_refl eq_refl eq_refl) eq_refl).
  - exact (proj1 (proj2 (target_range_check_first "target(3)" "3" 3 _ false
                           eq_refl eq_refl eq_refl)) eq_refl eq_refl).
  - exact (proj2 (proj2 (target_range_check_first "target(3)" "3" 3 _ true
                           eq_refl eq_refl eq_refl)) eq_refl eq_refl).
Defined.

(** C5, as the specification states it, fails: with no skill armed,
    [target(9)] is reported as an invalid target index, not as a target
    without a skill. *)
Lemma target_out_of_range_unarmed :
  _parse_character "character1.target(9)" false = Raise (ValueError_target 9) /\
  _parse_character "character1.target(9)" false <> Raise RuntimeError_target.
Proof. split; [vm_compute; reflexivity | vm_compute; discriminate]. Qed.

Lemma _parse_summon_name (line : string) (rest : list string) :
  Str.startswith line "summon:" = true ->
  _parse_summon (line :: rest)
  = Ok (rest, Some (Str.before ":" (Str.drop 7 line))).
Proof.
  intros H. unfold _parse_summon. rewrite H. cbn [negb].
  pose proof (StrFacts.startswith_app line "summon:" H) as E.
  cbn [String.length] in E. remember (Str.drop 7 line) as r eqn:Er.
  change ("summon:" ++ r)%string with ("summon" ++ String ":" r)%string in E.
  rewrite E, StrFacts.split_app_sep.
  destruct (StrFacts.split_cons ":" r) as [t ->]. reflexivity.
Qed.

Lemma info_before_pop (s : locals) (r1 : list string) (u : option string)
    (r2 : list string) (name : string) (r3 : list string) (rp : option Z)
    (r4 : list string) (acts : turns) :
  summon (raid_info (before_pop s r1 u r2 (Some name) r3 rp r4 acts))
  = Some name.
Proof. unfold before_pop. destruct rp; reflexivity. Qed.

(** C7, as amended.  When the line at the front, once the URL step is
    done, starts with [summon:], the summon field of the raid in progress
    is set to the text between the first colon and the next one (to the end
    of the line when there is no other colon). *)
Theorem summon_name_up_to_next_colon (s : locals) (u : option string)
    (line : string) (rest : list string) :
  _parse_url (remain_txt s) = (line :: rest, u) ->
  Str.startswith line "summon:" = true ->
  _parse_summon (line :: rest)
  = Ok (rest, Some (Str.before ":" (Str.drop 7 line))) /\
  forall s', cycle s = Ok s' ->
             summon (raid_info s') = Some (Str.before ":" (Str.drop 7 line)).
Proof.
  intros Hu Hp. split; [now apply _parse_summon_name|].
  intros s' H. apply Cycle.cycle_shape in H.
  destruct H as (r1 & u' & r2 & sm & r3 & rp & r4 & acts & Hu' & Hs & _ & _ & H).
  rewrite Hu in Hu'. injection Hu' as <- <-.
  rewrite (_parse_summon_name line rest Hp) in Hs. injection Hs as <- <-.
  cbv zeta in H. destruct H as [[_ H] | [_ ->]]; [|apply info_before_pop].
  unfold pop_first in H.
  match type of H with
  | match ?x with _ => _ end = _ => destruct x; [discriminate|]
  end.
  injection H as <-. cbn [raid_info with_remain]. apply info_before_pop.
Qed.

Lemma summon_name_up_to_next_colon_witness :
  _parse_summon ["summon:kaguya:lv100"; "repeat:2"]
  = Ok (["repeat:2"], Some "kaguya") /\
  exists s',
    cycle (mk_locals ["http://raid"; "summon:kaguya:lv100"; "repeat:2"]
             Dict.empty 0 no_info Dict.empty) = Ok s' /\
    summon (raid_info s') = Some "kaguya".
Proof.
  pose proof (summon_name_up_to_next_colon
                (mk_locals ["http://raid"; "summon:kaguya:lv100"; "repeat:2"]
                   Dict.empty 0 no_info Dict.empty)
                (Some "http://raid") "summon:kaguya:lv100" ["repeat:2"]
                eq_refl eq_refl) as [H1 H2].
  split; [exact H1|].
  eexists. split; [vm_compute; reflexivity|].
  apply H2. vm_compute. reflexivity.
Defined.

(** C7, as the specification states it, fails: the name stops at the
    second colon, the rest of the line is not part of it. *)
Lemma summon_name_not_whole_remainder :
  exists (line name : string),
    Str.startswith line "summon:" = true /\
    _parse_summon [line] = Ok ([], Some name) /\
    Str.drop 7 line = "kaguya:lv100" /\
    name = "kaguya".
Proof.
  exists "summon:kaguya:lv100", "kaguya". repeat split.
Qed.

(** ** Facts about dictionaries *)

Module DictFacts.
Import Dict.

Section Values.
Context {V : Type}.
Implicit Types (d : Dict.t V) (k : Z) (v : V).

Lemma get_set k k' v d :
  get k (set k' v d) = if (k =? k')%Z then Some v else get k d.
Proof.
  induction d as [|[k0 v0] d IH]; cbn [set get]; [reflexivity|].
  destruct (Z.eqb_spec k' k0) as [->|N]; cbn [get].
  - destruct (k =? k0)%Z; reflexivity.
  - rewrite IH.
    destruct (Z.eqb_spec k k0) as [->|]; [|reflexivity].
    destruct (Z.eqb_spec k0 k'); [congruence | reflexivity].
Qed.

Lemma keys_set k v d :
  keys (set k v d) = if existsb (Z.eqb k) (keys d) then keys d else keys d ++ [k].
Proof.
  unfold keys. induction d as [|[k0 v0] d IH]; cbn [set map existsb fst];
    [reflexivity|].
  destruct (k =? k0)%Z; cbn [orb map fst]; [reflexivity|].
  rewrite IH. destruct (existsb _ _); reflexivity.
Qed.

Lemma set_fresh k v d : ~ In k (keys d) -> set k v d = d ++ [(k, v)].
Proof.
  unfold keys. induction d as [|[k0 v0] d IH]; cbn [set map In fst app];
    [reflexivity|].
  intros N. destruct (Z.eqb_spec k k0) as [->|_].
  - elim N. now left.
  - rewrite IH; [reflexivity|]. intros I. apply N. now right.
Qed.

Lemma keys_set_NoDup k v d : NoDup (keys d) -> NoDup (keys (set k v d)).
Proof.
  intros H. rewrite keys_set. destruct (existsb _ _) eqn:E; [exact H|].
  apply NoDup_app; [exact H | repeat constructor; intros [] |].
  intros x Hx [Ex|[]]. subst x.
  assert (T : existsb (Z.eqb k) (keys d) = true)
    by (apply existsb_exists; exists k; split; [exact Hx | apply Z.eqb_refl]).
  congruence.
Qed.

End Values.

End DictFacts.

(** ** Runs of turn blocks *)

Module Combact.
Import OutcomeFacts Consume.

Lemma _parse_combact_loop (text : list string) :
  _parse_combact text = combact_loop (S (List.length text)) text Dict.empty.
Proof. destruct text; reflexivity. Qed.

Lemma combact_loop_blocks (fuel : nat) (remain : list string) (acc : turns)
    (rest : list string) (d : turns) :
  combact_loop fuel remain acc = Ok (rest, d) ->
  exists blocks,
    forall acc', combact_loop fuel remain acc'
                 = Ok (rest, assign_blocks blocks acc').
Proof.
  revert remain acc. induction fuel as [|fuel IH]; intros remain acc;
    cbn [combact_loop]; [discriminate|].
  destruct remain as [|line remain].
  - intros H. injection H as <- _. now exists [].
  - destruct (Str.startswith line "turn").
    + intros H. bind_inv H. destruct a as [[r turn] acts].
      destruct (IH _ _ H) as [blocks Hb].
      exists ((turn, acts) :: blocks). intros acc'. rewrite Ha. cbn [bind].
      apply Hb.
    + intros H. injection H as <- _. now exists [].
Qed.

Lemma assign_blocks_cons (t : Z) (a : list action)
    (blocks : list (Z * list action)) (acc : turns) :
  assign_blocks ((t, a) :: blocks) acc = assign_blocks blocks (Dict.set t a acc).
Proof. reflexivity. Qed.

Lemma get_assign_blocks (blocks : list (Z * list action)) (acc : turns) (k : Z) :
  Dict.get k (assign_blocks blocks acc)
  = match Dict.get k (assign_blocks blocks Dict.empty) with
    | Some v => Some v
    | None => Dict.get k acc
    end.
Proof.
  revert acc. induction blocks as [|[t a] blocks IH]; intros acc;
    [reflexivity|].
  rewrite !assign_blocks_cons.
  rewrite (IH (Dict.set t a acc)), (IH (Dict.set t a Dict.empty)).
  destruct (Dict.get k (assign_blocks blocks Dict.empty)); [reflexivity|].
  rewrite !DictFacts.get_set. cbn [Dict.get Dict.empty].
  destruct (k =? t)%Z; reflexivity.
Qed.

Lemma assign_blocks_NoDup (blocks : list (Z * list action)) (acc : turns) :
  NoDup (Dict.keys acc) -> NoDup (Dict.keys (assign_blocks blocks acc)).
Proof.
  revert acc. induction blocks as [|[t a] blocks IH]; intros acc H;
    [exact H|].
  rewrite assign_blocks_cons. apply IH, DictFacts.keys_set_NoDup, H.
Qed.

End Combact.

(** C10.  When the first block of a run declares turn [t] with actions
    [a1], the mapping of the whole run is the mapping [d2] of the blocks
    that follow, plus [t |-> a1] only if none of them declares [t].  So a
    later block with the same number replaces the earlier one: the entry
    holds the later actions alone, the key occurs once, and nothing is
    rejected. *)
Theorem later_turn_block_replaces (line : string) (more rest1 rest2 : list string)
    (t : Z) (a1 : list action) (d2 : turns) :
  Str.startswith line "turn" = true ->
  _parse_turn (line :: more) = Ok (rest1, t, a1) ->
  _parse_combact rest1 = Ok (rest2, d2) ->
  exists d,
    _parse_combact (line :: more) = Ok (rest2, d) /\
    (forall k, Dict.get k d = match Dict.get k d2 with
                              | Some v => Some v
                              | None => if (k =? t)%Z then Some a1 else None
                              end) /\
    (forall a2, Dict.get t d2 = Some a2 -> Dict.get t d = Some a2) /\
    NoDup (Dict.keys d).
Proof.
  intros Hp Ht Hc.
  rewrite Combact._parse_combact_loop in Hc.
  destruct (Consume._parse_turn_suffix _ _ _ _ Ht) as (first & used & E).
  assert (Hf : (S (List.length rest1) <= List.length (line :: more))%nat).
  { rewrite E. cbn [List.length]. rewrite length_app. lia. }
  apply (Consume.combact_loop_more_fuel _ _ _ _ _ Hc) in Hf.
  destruct (Combact.combact_loop_blocks _ _ _ _ _ Hf) as [blocks Hb].
  pose proof (Hb Dict.empty) as H0. rewrite Hf in H0. injection H0 as Ed2.
  exists (assign_blocks blocks (Dict.set t a1 Dict.empty)).
  assert (G : forall k,
             Dict.get k (assign_blocks blocks (Dict.set t a1 Dict.empty))
             = match Dict.get k d2 with
               | Some v => Some v
               | None => if (k =? t)%Z then Some a1 else None
               end).
  { intros k. rewrite Combact.get_assign_blocks, <- Ed2. reflexivity. }
  split; [|split; [exact G|split]].
  - rewrite Combact._parse_combact_loop. cbn [combact_loop].
    rewrite Hp, Ht. cbn [bind]. apply Hb.
  - intros a2 H2. now rewrite G, H2.
  - apply Combact.assign_blocks_NoDup. cbn. repeat constructor. intros [].
Qed.

Lemma later_turn_block_replaces_witness :
  exists d,
    _parse_combact ["turn 1:"; "attack"; "end";
                    "turn 1:"; "wait(3)"; "end"; "http://raid"]
    = Ok (["http://raid"], d) /\
    Dict.get 1%Z d = Some [wait 3] /\
    NoDup (Dict.keys d).
Proof.
  destruct (later_turn_block_replaces "turn 1:"
              ["attack"; "end"; "turn 1:"; "wait(3)"; "end"; "http://raid"]
              ["turn 1:"; "wait(3)"; "end"; "http://raid"] ["http://raid"]
              1%Z [Pair "attack"] [(1%Z, [wait 3])]
              eq_refl eq_refl eq_refl) as (d & H1 & _ & H3 & H4).
  exists d. split; [exact H1|]. split; [|exact H4].
  apply H3. reflexivity.
Defined.

(** ** Raid ids and URLs *)

Module Raids.
Import OutcomeFacts Cycle.

Lemma first_keys_S (n : nat) :
  first_keys (S n) = first_keys n ++ [Z.of_nat (S n)].
Proof. unfold first_keys. now rewrite seq_S, map_app. Qed.

Lemma first_keys_fresh (n : nat) : ~ In (Z.of_nat (S n)) (first_keys n).
Proof.
  unfold first_keys. intros H. apply in_map_iff in H.
  destruct H as (m & E & I). apply in_seq in I. lia.
Qed.

Lemma raid_urls_app (d1 d2 : Dict.t raid) :
  raid_urls (d1 ++ d2) = raid_urls d1 ++ raid_urls d2.
Proof. apply flat_map_app. Qed.

Lemma in_order_refl {A : Type} (l : list A) : in_order l l.
Proof. induction l; constructor; assumption. Qed.

Lemma in_order_app_skip {A : Type} (p l1 l2 : list A) :
  in_order l1 l2 -> in_order l1 (p ++ l2).
Proof. intros H. induction p; cbn [app]; [exact H | now constructor]. Qed.

Lemma in_order_nil_inv {A : Type} (l : list A) : in_order l [] -> l = [].
Proof. intros H. now inversion H. Qed.

Lemma conclude_appends (s : locals) :
  numbered s ->
  list_of_raids (conclude s)
  = list_of_raids s ++
    [(Z.of_nat (S (List.length (list_of_raids s))),
      mk_raid (raid_info s) (combact_actions s))].
Proof.
  intros [K C _ _]. cbn [conclude list_of_raids].
  rewrite C. replace (Z.of_nat (List.length (list_of_raids s)) + 1)%Z
    with (Z.of_nat (S (List.length (list_of_raids s)))) by lia.
  apply DictFacts.set_fresh. rewrite K. apply first_keys_fresh.
Qed.

Lemma numbered_with_remain (r : list string) (s : locals) :
  numbered s -> numbered (with_remain r s).
Proof. intros [? ? ? ?]. now constructor. Qed.

Lemma numbered_with_actions (a : turns) (s : locals) :
  numbered s -> numbered (with_actions a s).
Proof. intros [? ? ? ?]. now constructor. Qed.

Lemma numbered_on_summon (sm : option string) (s : locals) :
  numbered s -> numbered (on_summon sm s).
Proof. intros [? ? ? ?]. destruct sm; now constructor. Qed.

Lemma numbered_on_repeat (rp : option Z) (s : locals) :
  numbered s -> numbered (on_repeat rp s).
Proof. intros [? ? ? ?]. destruct rp; now constructor. Qed.

Lemma numbered_on_url (u : option string) (s : locals) :
  numbered s -> numbered (on_url u s).
Proof.
  intros N. destruct u as [line|]; [|exact N]. unfold on_url.
  destruct (url (raid_info s)) as [old|] eqn:E.
  - pose proof (conclude_appends s N) as A. destruct N as [K C U _].
    constructor; cbn [with_info fresh_raid list_of_raids raid_cnt raid_info url];
      fold (list_of_raids (conclude s)); try rewrite A.
    + unfold Dict.keys in *. rewrite map_app, K, length_app.
      cbn [map fst List.length]. rewrite Nat.add_1_r. symmetry.
      apply first_keys_S.
    + cbn [conclude raid_cnt]. rewrite C, length_app. cbn [List.length]. lia.
    + rewrite raid_urls_app, !length_app, U. cbn. now rewrite E.
    + discriminate.
  - destruct N as [K C U _]. constructor; try assumption.
    cbn [with_info raid_info url]. discriminate.
Qed.

Lemma seen_on_url (u : option string) (s : locals) :
  numbered s ->
  seen_urls (on_url u s)
  = seen_urls s ++ match u with Some line => [line] | None => [] end.
Proof.
  intros N. destruct u as [line|]; [|now rewrite app_nil_r]. unfold on_url.
  destruct (url (raid_info s)) as [old|] eqn:E; unfold seen_urls.
  - cbn [with_info fresh_raid list_of_raids raid_info url].
    fold (list_of_raids (conclude s)). rewrite (conclude_appends s N).
    rewrite raid_urls_app, E. cbn. rewrite E. now rewrite <- !app_assoc.
  - cbn [with_info list_of_raids raid_info url]. now rewrite E, app_nil_r.
Qed.

Lemma seen_before_pop (s : locals) (r1 : list string) (u : option string)
    (r2 : list string) (sm : option string) (r3 : list string)
    (rp : option Z) (r4 : list string) (acts : turns) :
  seen_urls (before_pop s r1 u r2 sm r3 rp r4 acts)
  = seen_urls (on_url u s).
Proof.
  unfold before_pop, seen_urls.
  destruct rp, sm, u as [line|]; cbn; try reflexivity;
    destruct (url (raid_info s)); reflexivity.
Qed.

Lemma numbered_before_pop (s : locals) (r1 : list string) (u : option string)
    (r2 : list string) (sm : option string) (r3 : list string)
    (rp : option Z) (r4 : list string) (acts : turns) :
  numbered s -> numbered (before_pop s r1 u r2 sm r3 rp r4 acts).
Proof.
  intros N. unfold before_pop.
  apply numbered_with_actions, numbered_with_remain, numbered_on_repeat,
    numbered_with_remain, numbered_on_summon, numbered_with_remain,
    numbered_on_url, numbered_with_remain, N.
Qed.

Lemma pop_first_same (s s' : locals) :
  pop_first s = Ok s' -> s' = with_remain (remain_txt s') s.
Proof.
  unfold pop_first. destruct (remain_txt s); [discriminate|].
  intros H. now injection H as <-.
Qed.

(** One pass: the invariant is kept, at most one URL is recorded, and it
    comes before every URL line still to be read. *)
Lemma cycle_urls (s s' : locals) :
  numbered s -> cycle s = Ok s' ->
  numbered s' /\
  exists new,
    seen_urls s' = seen_urls s ++ new /\
    forall later,
      in_order later (filter is_url (remain_txt s')) ->
      in_order (new ++ later) (filter is_url (remain_txt s)).
Proof.
  intros N H. destruct (cycle_consumes _ _ H) as (used & Hne & E).
  apply cycle_shape in H.
  destruct H as (r1 & u & r2 & sm & r3 & rp & r4 & acts & Hu & _ & _ & _ & H).
  cbv zeta in H.
  assert (S4 : numbered s' /\
               seen_urls s' = seen_urls s ++
                 match u with Some line => [line] | None => [] end).
  { destruct H as [[_ H] | [_ ->]].
    - apply pop_first_same in H. rewrite H. split.
      + apply numbered_with_remain, numbered_before_pop, N.
      + change (seen_urls (with_remain ?r ?x)) with (seen_urls x).
        rewrite seen_before_pop. now apply seen_on_url.
    - split; [apply numbered_before_pop, N|].
      rewrite seen_before_pop. now apply seen_on_url. }
  destruct S4 as [N' S']. split; [exact N'|].
  eexists. split; [exact S'|]. intros later L. rewrite E, filter_app.
  destruct (_parse_url_cases _ _ _ Hu) as [[_ ->] | (line & E1 & -> & Hl)].
  - cbn [app]. now apply in_order_app_skip.
  - rewrite E in E1. destruct used as [|first used]; [contradiction|].
    cbn [app] in E1. injection E1 as -> _.
    cbn [app filter]. unfold is_url at 1. rewrite Hl. cbn [app].
    apply in_order_take. now apply in_order_app_skip.
Qed.

Lemma raids_loop_urls (fuel : nat) (s s' : locals) :
  numbered s -> raids_loop fuel s = Ok s' ->
  numbered s' /\
  exists new,
    seen_urls s' = seen_urls s ++ new /\
    in_order new (filter is_url (remain_txt s)).
Proof.
  revert s. induction fuel as [|fuel IH]; intros s N; cbn [raids_loop];
    destruct (remain_txt s) as [|line rest] eqn:E; intros H;
    try discriminate;
    try (injection H as <-; split; [exact N|]; exists [];
         rewrite app_nil_r; split; [reflexivity | constructor]).
  bind_inv H. destruct (cycle_urls s a N Ha) as (N1 & new0 & S1 & O1).
  destruct (IH a N1 H) as (N' & new1 & S' & O').
  split; [exact N'|]. exists (new0 ++ new1). split.
  - now rewrite S', S1, app_assoc.
  - rewrite <- E. now apply O1.
Qed.

Lemma numbered_start (txt : list string) : numbered (start txt).
Proof.
  constructor; try reflexivity. intros H. exfalso. apply H. reflexivity.
Qed.

Lemma raid_urls_conclude (s : locals) :
  numbered s -> raid_urls (list_of_raids (conclude s)) = seen_urls s.
Proof.
  intros N. rewrite (conclude_appends s N), raid_urls_app. unfold seen_urls.
  f_equal. cbn. now rewrite app_nil_r.
Qed.

End Raids.

(** ** Further properties of the parser *)

(** *** Indexing from the end and one-character literals *)

Module Index.
Import Str StrFacts OutcomeFacts.

Lemma length_app (a b : string) :
  String.length (a ++ b)%string = (String.length a + String.length b)%nat.
Proof. induction a as [|c a IH]; cbn; [reflexivity | now rewrite IH]. Qed.

Lemma get_app_r (a b : string) (i : nat) :
  String.get (String.length a + i) (a ++ b)%string = String.get i b.
Proof. induction a as [|c a IH]; cbn; [reflexivity | exact IH]. Qed.

Lemma get_in_range (s : string) (i : nat) :
  (i < String.length s)%nat -> exists c, String.get i s = Some c.
Proof.
  revert i. induction s as [|c s IH]; intros i H; cbn in H; [lia|].
  destruct i as [|i]; cbn; [now exists c|]. apply IH. lia.
Qed.

(** [(body ++ tail)[-k]] is [tail[-k]] when [tail] has [k] characters or
    more. *)
Lemma index_from_end_app (body tail : string) (k : nat) :
  (1 <= k <= String.length tail)%nat ->
  index_from_end (body ++ tail)%string k = index_from_end tail k.
Proof.
  intros H. unfold index_from_end. rewrite length_app.
  destruct (Nat.ltb_spec (String.length body + String.length tail) k); [lia|].
  destruct (Nat.ltb_spec (String.length tail) k); [lia|].
  replace (String.length body + String.length tail - k)%nat
    with (String.length body + (String.length tail - k))%nat by lia.
  now rewrite get_app_r.
Qed.

Lemma index_from_end_char (s a : string) (k : nat) :
  index_from_end s k = Ok a -> exists c, a = String c EmptyString.
Proof.
  unfold index_from_end. destruct (_ <? _)%nat; [discriminate|].
  destruct (String.get _ s) as [c|]; [|discriminate].
  intros H. injection H as <-. now exists c.
Qed.

Lemma index_from_end_in_bounds (s : string) (k : nat) :
  (1 <= k <= String.length s)%nat -> in_bounds (index_from_end s k).
Proof.
  intros H. unfold index_from_end, in_bounds.
  destruct (Nat.ltb_spec (String.length s) k); [lia|].
  destruct (get_in_range s (String.length s - k)) as [c ->]; [lia|].
  discriminate.
Qed.

Lemma startswith_length (s p : string) :
  startswith s p = true -> (String.length p <= String.length s)%nat.
Proof.
  intros H. pose proof (f_equal String.length (startswith_app s p H)) as E.
  rewrite length_app in E. lia.
Qed.

(** [int] of one character: its value when it is a decimal digit, a
    [ValueError] otherwise. *)
Lemma int_char (c : ascii) :
  int (String c EmptyString)
  = match digit c with
    | Some d => Ok d
    | None => Raise ValueError_literal
    end.
Proof. each_char c; reflexivity. Qed.

Lemma digit_below_10 (c : ascii) (d : Z) : digit c = Some d -> below 10 d.
Proof.
  unfold digit, between, below, code. intros H.
  destruct (_ && _) eqn:E; [|discriminate]. injection H as <-.
  apply andb_true_iff in E. destruct E as [E1 E2].
  apply N.leb_le in E1, E2. lia.
Qed.

Lemma int_in_bounds (s : string) : in_bounds (int s).
Proof.
  unfold int, in_bounds.
  destruct (int_rskip (int_lskip s)) as [|c r]; cbv zeta.
  - simpl. discriminate.
  - destruct (match c with
              | "+"%char => (1%Z, r)
              | "-"%char => ((-1)%Z, r)
              | _ => (1%Z, String c r)
              end) as [sign body].
    destruct (digits 0 false body); discriminate.
Qed.

Lemma in_bounds_bind {A B : Type} (m : outcome A) (k : A -> outcome B) :
  in_bounds m -> (forall a, m = Ok a -> in_bounds (k a)) ->
  in_bounds (bind m k).
Proof.
  unfold in_bounds. destruct m as [a|e|]; cbn [bind]; intros Hm Hk.
  - now apply Hk.
  - intros E. apply Hm. injection E as ->. reflexivity.
  - discriminate.
Qed.

End Index.

(** X1.  Of a [repeat:] line only the last character counts: the repeat
    count is that character when it is a decimal digit, whatever stands
    between the colon and it, and the line is a [ValueError] otherwise.  A
    count read from a script is therefore always between 0 and 9. *)
Theorem repeat_is_last_digit (body : string) (c : ascii) (rest : list string) :
  Str.startswith (body ++ String c "")%string "repeat:" = true ->
  _parse_repeat ((body ++ String c "")%string :: rest)
  = match Str.digit c with
    | Some d => Ok (rest, Some d)
    | None => Raise ValueError_literal
    end /\
  forall r n,
    _parse_repeat ((body ++ String c "")%string :: rest) = Ok (r, Some n) ->
    below 10 n.
Proof.
  intros H.
  assert (E : _parse_repeat ((body ++ String c "")%string :: rest)
              = match Str.digit c with
                | Some d => Ok (rest, Some d)
                | None => Raise ValueError_literal
                end).
  { unfold _parse_repeat. rewrite H. cbn [negb].
    rewrite Index.index_from_end_app by (cbn; lia).
    change (Str.index_from_end (String c "") 1) with (Ok (String c "")).
    cbn [bind]. rewrite Index.int_char.
    destruct (Str.digit c); reflexivity. }
  split; [exact E|]. intros r n. rewrite E.
  destruct (Str.digit c) as [d|] eqn:D; [|discriminate].
  intros K. injection K as _ <-. exact (Index.digit_below_10 c d D).
Qed.

Lemma repeat_is_last_digit_witness :
  _parse_repeat ["repeat:12"; "turn 1:"] = Ok (["turn 1:"], Some 2%Z) /\
  _parse_repeat ["repeat:"; "turn 1:"] = Raise ValueError_literal.
Proof.
  split.
  - exact (proj1 (repeat_is_last_digit "repeat:1" "2" ["turn 1:"] eq_refl)).
  - exact (proj1 (repeat_is_last_digit "repeat" ":" ["turn 1:"] eq_refl)).
Defined.

(** *** Turn blocks *)

Module Turn.
Import OutcomeFacts.

Lemma _parse_turn_header (body : string) (c c' : ascii) (lines : list string) :
  _parse_turn ((body ++ String c (String c' ""))%string :: lines)
  = match Str.digit c with
    | Some t =>
        '(remain, acts) <- turn_loop lines false [] ;; Ok (remain, t, acts)
    | None => Raise ValueError_literal
    end.
Proof.
  unfold _parse_turn. rewrite Index.index_from_end_app by (cbn; lia).
  change (Str.index_from_end (String c (String c' "")) 2) with (Ok (String c "")).
  cbn [bind]. rewrite Index.int_char. destruct (Str.digit c); reflexivity.
Qed.

Lemma turn_loop_end (rest : list string) (sel : bool) (acc : list action) :
  turn_loop ("end" :: rest) sel acc = Ok (rest, acc).
Proof. reflexivity. Qed.

Lemma turn_loop_after_end (lines : list string) (sel : bool)
    (acc : list action) (rest : list string) (acts : list action) :
  turn_loop lines sel acc = Ok (rest, acts) -> rest = after_end lines.
Proof.
  revert sel acc. induction lines as [|line lines IH]; intros sel acc H.
  - cbn in H. now injection H as <- _.
  - cbn [after_end]. destruct (String.eqb_spec line "end") as [->|N].
    + rewrite turn_loop_end in H. now injection H as <- _.
    + cbn [turn_loop] in H.
      repeat match type of H with
             | (if ?b then _ else _) = _ => destruct b eqn:?
             | bind _ _ = Ok _ => bind_inv H
             end; eauto; try discriminate.
      exfalso. apply N. now apply String.eqb_eq.
Qed.

Lemma turn_loop_plain (line : string) (lines : list string) (sel : bool)
    (acc : list action) :
  plain line = true ->
  turn_loop (line :: lines) sel acc = turn_loop lines sel (acc ++ [Entry line []]).
Proof.
  unfold plain. intros H. apply negb_true_iff in H.
  repeat (apply orb_false_iff in H; destruct H as [H ?]).
  cbn [turn_loop].
  repeat match goal with E : _ = false |- _ => rewrite E; clear E end.
  reflexivity.
Qed.

Lemma turn_loop_plain_lines (lines more : list string) (sel : bool)
    (acc : list action) :
  Forall (fun line => plain line = true) lines ->
  turn_loop (lines ++ more) sel acc
  = turn_loop more sel (acc ++ map (fun line => Entry line []) lines).
Proof.
  intros H. revert acc. induction H as [|line lines P _ IH]; intros acc.
  - cbn. now rewrite app_nil_r.
  - cbn [app map]. rewrite (turn_loop_plain _ _ _ _ P), IH.
    now rewrite <- app_assoc.
Qed.

End Turn.

(** X2.  The number of a turn is the decimal digit that stands just
    before the last character of its first line; the rest of that line is
    not looked at.  A turn block whose first line has no digit there is a
    [ValueError], and a turn number is always between 0 and 9. *)
Theorem turn_number_is_one_digit (body : string) (c c' : ascii)
    (lines : list string) :
  (Str.digit c = None ->
   _parse_turn ((body ++ String c (String c' ""))%string :: lines)
   = Raise ValueError_literal) /\
  (forall rest t acts,
      _parse_turn ((body ++ String c (String c' ""))%string :: lines)
      = Ok (rest, t, acts) ->
      Str.digit c = Some t /\ below 10 t).
Proof.
  rewrite Turn._parse_turn_header. split.
  - now intros ->.
  - intros rest t acts. destruct (Str.digit c) as [d|] eqn:D; [|discriminate].
    intros H. bind_inv H. destruct a as [r a]. injection H as _ <- _.
    split; [reflexivity | exact (Index.digit_below_10 c d D)].
Qed.

Lemma turn_number_is_one_digit_witness :
  _parse_turn ["turn 1"; "attack"; "end"] = Raise ValueError_literal /\
  (Str.digit "2" = Some 2%Z /\ below 10 2).
Proof.
  split.
  - exact (proj1 (turn_number_is_one_digit "turn" " " "1" ["attack"; "end"])
             eq_refl).
  - exact (proj2 (turn_number_is_one_digit "turn 1" "2" ":" ["attack"; "end"])
             [] 2%Z [Pair "attack"] eq_refl).
Defined.

(** X3.  A turn block runs from its first line to the first line equal to
    [end]: the lines handed back are exactly those after that [end], and
    none at all when the block has no [end] line, whatever the lines in
    between are. *)
Theorem turn_block_runs_to_end (header : string) (lines rest : list string)
    (t : Z) (acts : list action) :
  _parse_turn (header :: lines) = Ok (rest, t, acts) ->
  rest = after_end lines /\
  ((forall line, In line lines -> line <> "end") -> rest = []).
Proof.
  unfold _parse_turn. intros H. bind_inv H. bind_inv H. bind_inv H.
  destruct a1 as [r a']. injection H as -> _ _.
  pose proof (Turn.turn_loop_after_end _ _ _ _ _ Ha1) as E.
  split; [exact E|]. intros N. rewrite E. clear - N.
  induction lines as [|line lines IH]; [reflexivity|]. cbn [after_end].
  destruct (String.eqb_spec line "end") as [->|_].
  - elim (N "end"); [now left | reflexivity].
  - apply IH. intros l I. apply N. now right.
Qed.

Lemma turn_block_runs_to_end_witness :
  after_end ["attack"; "http://next"; "turn 2:"; "attack"] = [] /\
  after_end ["attack"; "end"; "turn 2:"; "attack"; "end"]
  = ["turn 2:"; "attack"; "end"].
Proof.
  split.
  - rewrite <- (proj1 (turn_block_runs_to_end "turn 1:"
                         ["attack"; "http://next"; "turn 2:"; "attack"] []
                         1%Z
                         [Pair "attack"; Entry "http://next" [];
                          Entry "turn 2:" []; Pair "attack"] eq_refl)).
    reflexivity.
  - rewrite <- (proj1 (turn_block_runs_to_end "turn 1:"
                         ["attack"; "end"; "turn 2:"; "attack"; "end"]
                         ["turn 2:"; "attack"; "end"] 1%Z [Pair "attack"]
                         eq_refl)).
    reflexivity.
Defined.

(** X4.  Lines of a turn block that are of none of the recognised kinds
    pass through unchanged: a block made of such lines compiles to one
    action [{line: {}}] per line, in the order of the lines. *)
Theorem plain_lines_pass_through (body : string) (c c' : ascii) (t : Z)
    (lines rest : list string) :
  Str.digit c = Some t ->
  Forall (fun line => plain line = true) lines ->
  _parse_turn ((body ++ String c (String c' ""))%string
                 :: lines ++ "end" :: rest)
  = Ok (rest, t, map (fun line => Entry line []) lines).
Proof.
  intros D P. rewrite Turn._parse_turn_header, D.
  rewrite (Turn.turn_loop_plain_lines lines ("end" :: rest) false [] P).
  rewrite Turn.turn_loop_end. reflexivity.
Qed.

Lemma plain_lines_pass_through_witness :
  _parse_turn ["turn 1:"; "quicksummon"; "subback"; "end"; "http://next"]
  = Ok (["http://next"], 1%Z, [Entry "quicksummon" []; Entry "subback" []]).
Proof.
  exact (plain_lines_pass_through "turn " "1" ":" 1%Z
           ["quicksummon"; "subback"] ["http://next"] eq_refl
           ltac:(repeat constructor)).
Defined.

(** *** Character chains and the order of actions *)

Module Chain.
Import OutcomeFacts.

Lemma in_tuple_below (n x : Z) :
  in_tuple 1 n x = true -> below n (x - 1).
Proof.
  unfold in_tuple, below. intros H. apply andb_true_iff in H.
  destruct H as [H1 H2]. apply Z.leb_le in H1, H2. lia.
Qed.

Lemma chain_run_skill_last (a b : bool) (i : Z) (acts : list action) :
  below 4 i -> chain_run a acts b -> chain_run a (acts ++ [useskill i]) true.
Proof.
  intros Hi H. induction H; cbn [app].
  - apply chain_run_skill; [exact Hi | constructor].
  - now apply chain_run_skill.
  - now apply chain_run_target.
Qed.

Lemma chain_run_target_last (a : bool) (i : Z) (acts : list action) :
  below 6 i -> chain_run a acts true -> chain_run a (acts ++ [target i]) false.
Proof.
  intros Hi H. remember true as b eqn:E. induction H; cbn [app]; subst.
  - apply chain_run_target; [exact Hi | constructor].
  - apply chain_run_skill; [assumption | now apply IHchain_run].
  - apply chain_run_target; [assumption | now apply IHchain_run].
Qed.

(** A pass over one segment keeps the first action and extends a run. *)
Lemma chain_cmd_run (cmd : string) (first : action) (tail : list action)
    (armed : bool) (ret' : list action) (armed' : bool) :
  chain_run false tail armed ->
  chain_cmd cmd (first :: tail, armed) = Ok (ret', armed') ->
  exists tail', ret' = first :: tail' /\ chain_run false tail' armed'.
Proof.
  intros R. unfold chain_cmd.
  destruct (Str.startswith cmd "useskill").
  - intros H. bind_inv H. bind_inv H.
    destruct (in_tuple 1 4 a0) eqn:E; cbn [negb] in H; [|discriminate].
    injection H as <- <-. eexists. split; [reflexivity|].
    eapply chain_run_skill_last; [now apply in_tuple_below | exact R].
  - destruct (Str.startswith cmd "target").
    + intros H. bind_inv H. bind_inv H.
      destruct (in_tuple 1 6 a0) eqn:E; cbn [negb] in H; [|discriminate].
      destruct armed; cbn [negb] in H; [|discriminate].
      injection H as <- <-. eexists. split; [reflexivity|].
      apply chain_run_target_last; [now apply in_tuple_below | exact R].
    + intros H. injection H as <- <-. now exists tail.
Qed.

Lemma chain_loop_run (chains : list string) (first : action)
    (tail : list action) (armed : bool) (ret' : list action) (armed' : bool) :
  chain_run false tail armed ->
  chain_loop chains (first :: tail, armed) = Ok (ret', armed') ->
  exists tail', ret' = first :: tail' /\ chain_run false tail' armed'.
Proof.
  revert tail armed. induction chains as [|cmd chains IH]; intros tail armed R;
    cbn [chain_loop].
  - intros H. injection H as <- <-. now exists tail.
  - intros H. bind_inv H. destruct a as [ret1 armed1].
    destruct (chain_cmd_run _ _ _ _ _ _ R Ha) as (tail1 & -> & R1).
    exact (IH _ _ R1 H).
Qed.

Lemma chain_run_in_turn (a b : bool) (acts : list action) :
  chain_run a acts b -> turn_run true acts true.
Proof.
  intros H. induction H.
  - constructor.
  - now apply turn_run_skill.
  - now apply turn_run_target.
Qed.

Lemma turn_run_app (a b c : bool) (l l' : list action) :
  turn_run a l b -> turn_run b l' c -> turn_run a (l ++ l') c.
Proof. intros H H'. induction H; cbn [app]; [exact H' | constructor; auto ..]. Qed.

(** What a character line adds to a turn, from either selection state. *)
Lemma character_line_run (line : string) (sel : bool) (acts : list action) :
  _parse_character line sel = Ok acts -> turn_run sel acts true.
Proof.
  unfold _parse_character. destruct (Str.split "." line) as [|first chains];
    [discriminate|].
  intros H. bind_inv H. bind_inv H.
  destruct (in_tuple 1 4 a0) eqn:E; cbn [negb] in H; [|discriminate].
  bind_inv H. destruct a1 as [ret armed]. injection H as <-. cbn [fst].
  apply in_tuple_below in E.
  destruct sel;
    destruct (chain_loop_run _ _ [] false _ _ (chain_run_nil false) Ha1)
      as (tail & -> & R);
    constructor; try exact E; exact (chain_run_in_turn _ _ _ R).
Qed.

Lemma plain_of_tests (line : string) :
  Str.startswith line "character" = false ->
  Str.startswith line "wait" = false ->
  Str.startswith line "summon" = false ->
  String.eqb line "attack" = false ->
  String.eqb line "enablefullauto" = false ->
  String.eqb line "end" = false ->
  plain line = true.
Proof. unfold plain. now intros -> -> -> -> -> ->. Qed.

Lemma turn_loop_run (lines : list string) (sel : bool) (acc : list action)
    (rest : list string) (acts : list action) :
  turn_run false acc sel ->
  turn_loop lines sel acc = Ok (rest, acts) ->
  exists b, turn_run false acts b.
Proof.
  revert sel acc. induction lines as [|line lines IH]; intros sel acc R;
    cbn [turn_loop].
  - intros H. injection H as _ <-. now exists sel.
  - destruct (Str.startswith line "character") eqn:T1.
    { intros H. bind_inv H. apply (IH _ _ (turn_run_app _ _ _ _ _ R
        (character_line_run _ _ _ Ha)) H). }
    destruct (Str.startswith line "wait") eqn:T2.
    { intros H. bind_inv H. refine (IH _ _ (turn_run_app _ _ _ _ _ R _) H).
      apply turn_run_wait. constructor. }
    destruct (Str.startswith line "summon") eqn:T3.
    { intros H. bind_inv H. bind_inv H.
      destruct (in_tuple 1 6 a0) eqn:E; cbn [negb] in H; [|discriminate].
      destruct sel; [bind_inv H; discriminate|].
      refine (IH _ _ (turn_run_app _ _ _ _ _ R _) H).
      apply turn_run_summon; [now apply in_tuple_below | constructor]. }
    destruct (String.eqb_spec line "attack") as [->|T4].
    { intros H. refine (IH _ _ (turn_run_app _ _ _ _ _ R _) H).
      apply turn_run_attack. constructor. }
    destruct (String.eqb_spec line "enablefullauto") as [->|T5].
    { destruct sel; intros H; [bind_inv H; discriminate|].
      refine (IH _ _ (turn_run_app _ _ _ _ _ R _) H).
      apply turn_run_fullauto. constructor. }
    destruct (String.eqb_spec line "end") as [->|T6].
    { intros H. injection H as _ <-. now exists sel. }
    intros H. refine (IH _ _ (turn_run_app _ _ _ _ _ R _) H).
    apply turn_run_plain; [|constructor].
    apply plain_of_tests; try assumption; now apply String.eqb_neq.
Qed.

Ltac unfold_actions :=
  unfold selectchar, changechar, useskill, target, wait, usesummon in *.

Ltac turn_run_inv H :=
  inversion H; subst; unfold_actions;
  try match goal with
      | E : Entry _ _ = Entry _ _ |- _ => try discriminate E; injection E as ?
      | E : Entry _ _ = Pair _ |- _ => discriminate E
      | E : Pair _ = Entry _ _ |- _ => discriminate E
      end; subst.

(** The selection state in which a run of actions begins settles the one
    in which it ends. *)
Lemma turn_run_functional (a b b' : bool) (acts : list action) :
  turn_run a acts b -> turn_run a acts b' -> b = b'.
Proof.
  intros H. revert b'. induction H; intros b' H';
    turn_run_inv H'; try reflexivity; try (now apply IHturn_run);
    try match goal with P : plain _ = true |- _ => discriminate P end.
Qed.

Lemma turn_run_split (a c : bool) (l l' : list action) :
  turn_run a (l ++ l') c -> exists b, turn_run a l b /\ turn_run b l' c.
Proof.
  revert a. induction l as [|x l IH]; intros a H.
  - exists a. split; [constructor | exact H].
  - cbn [app] in H. inversion H; subst;
      match goal with
      | R : turn_run _ (l ++ l') _ |- _ =>
          destruct (IH _ R) as (b & R1 & R2)
      end;
      exists b; (split; [|exact R2]).
    + now apply turn_run_select.
    + now apply turn_run_change.
    + now apply turn_run_skill.
    + now apply turn_run_target.
    + now apply turn_run_wait.
    + now apply turn_run_summon.
    + now apply turn_run_attack.
    + now apply turn_run_fullauto.
    + now apply turn_run_plain.
Qed.

(** The selection states in which an action with an index, or the action
    of [enablefullauto], can come first. *)
Lemma turn_run_head_unselected (a c : bool) (act : action) (acts : list action) :
  turn_run a (act :: acts) c ->
  (exists i, act = selectchar i \/ act = usesummon i) \/
  act = Entry "enablefullauto" [] ->
  a = false.
Proof.
  intros H [[i [E|E]]|E]; subst act; turn_run_inv H; try reflexivity;
    try match goal with P : plain _ = true |- _ => discriminate P end.
Qed.

Lemma turn_run_head_selected (a c : bool) (act : action) (acts : list action) :
  turn_run a (act :: acts) c ->
  (exists i, act = changechar i \/ act = useskill i \/ act = target i) ->
  a = true.
Proof.
  intros H [i [E|[E|E]]]; subst act; turn_run_inv H; reflexivity.
Qed.

End Chain.

(** X5.  A character line that compiles gives first the selection of the
    character, [changechar] when a character was already selected in the
    turn and [selectchar] when not, with an index from 0 to 3; then only
    [useskill] actions with indices 0 to 3 and [target] actions with
    indices 0 to 5, every [target] directly after a [useskill]. *)
Theorem character_line_shape (line : string) (sel : bool) (acts : list action) :
  _parse_character line sel = Ok acts ->
  exists (i : Z) (tail : list action) (armed : bool),
    below 4 i /\
    acts = (if sel then changechar i else selectchar i) :: tail /\
    chain_run false tail armed.
Proof.
  unfold _parse_character. destruct (Str.split "." line) as [|first chains];
    [discriminate|].
  intros H. bind_inv H. bind_inv H.
  destruct (in_tuple 1 4 a0) eqn:E; cbn [negb] in H; [|discriminate].
  bind_inv H. destruct a1 as [ret armed]. injection H as <-. cbn [fst].
  exists (a0 - 1)%Z.
  destruct sel;
    destruct (Chain.chain_loop_run _ _ [] false _ _ (chain_run_nil false) Ha1)
      as (tail & -> & R);
    exists tail, armed; (split; [now apply Chain.in_tuple_below|]);
    split; [reflexivity | exact R | reflexivity | exact R].
Qed.

Lemma character_line_shape_witness :
  exists (i : Z) (tail : list action) (armed : bool),
    below 4 i /\
    [changechar 1; useskill 0; target 5; useskill 3] = changechar i :: tail /\
    chain_run false tail armed.
Proof.
  exact (character_line_shape "character2.useskill(1).target(6).useskill(4)"
           true _ eq_refl).
Defined.

(** X6.  The actions of a turn that compiles follow the selection state.
    Read from the start of the turn with no character selected, where
    [selectchar i] and [changechar i] select and [attack] clears the
    selection, every action that carries an index comes in the state the
    code demands: [selectchar i] and [usesummon i] only with no character
    selected, [changechar i], [useskill i] and [target i] only with one
    selected; the action of [enablefullauto] comes only with none
    selected.  The pass-through actions [{line: {}}] of the lines no test
    recognises (a line spelled [usesummon] or [selectchar] is one) come in
    any state and leave it as it is.  All indices are in range. *)
Theorem turn_actions_follow_selection (text rest : list string) (t : Z)
    (acts : list action) :
  _parse_turn text = Ok (rest, t, acts) ->
  (exists selected : bool, turn_run false acts selected) /\
  forall (before : list action) (act : action) (after : list action),
    acts = before ++ act :: after ->
    exists sel : bool,
      turn_run false before sel /\
      (forall sel', turn_run false before sel' -> sel' = sel) /\
      ((exists i, act = selectchar i \/ act = usesummon i) \/
       act = Entry "enablefullauto" [] -> sel = false) /\
      ((exists i, act = changechar i \/ act = useskill i \/ act = target i) ->
       sel = true).
Proof.
  unfold _parse_turn. destruct text as [|first lines]; [discriminate|].
  intros H. bind_inv H. bind_inv H. bind_inv H. destruct a1 as [r a'].
  injection H as _ _ <-.
  destruct (Chain.turn_loop_run _ _ _ _ _ (turn_run_nil false) Ha1) as [b R].
  split; [now exists b|]. intros before act after E. rewrite E in R.
  destruct (Chain.turn_run_split _ _ _ _ R) as (sel & R1 & R2).
  exists sel. split; [exact R1|]. split; [|split].
  - intros sel' R'. exact (Chain.turn_run_functional _ _ _ _ R' R1).
  - exact (Chain.turn_run_head_unselected _ _ _ _ R2).
  - exact (Chain.turn_run_head_selected _ _ _ _ R2).
Qed.

Lemma turn_actions_follow_selection_witness :
  (exists selected : bool,
      turn_run false
        [selectchar 0; useskill 1; changechar 2; Entry "usesummon" [];
         Pair "attack"; usesummon 2; selectchar 3; wait 5]
        selected) /\
  exists sel : bool,
    turn_run false
      [selectchar 0; useskill 1; changechar 2; Entry "usesummon" [];
       Pair "attack"] sel /\
    sel = false.
Proof.
  destruct (turn_actions_follow_selection
              ["turn 3:"; "character1.useskill(2)"; "character3"; "usesummon";
               "attack"; "summon(3)"; "character4"; "wait(5)"; "end";
               "http://next"]
              ["http://next"] 3%Z _ eq_refl) as [R K].
  split; [exact R|].
  destruct (K [selectchar 0; useskill 1; changechar 2; Entry "usesummon" [];
               Pair "attack"]
              (usesummon 2) [selectchar 3; wait 5] eq_refl)
    as (sel & R1 & _ & F & _).
  exists sel. split; [exact R1|].
  apply F. left. exists 2%Z. now right.
Defined.

(** *** Indexing never goes out of range *)

Module Bounds.
Import OutcomeFacts Index.

Ltac bounds_step :=
  match goal with
  | |- in_bounds (bind _ _) => apply in_bounds_bind; [|intros ? ?]
  | |- in_bounds (if ?b then _ else _) => destruct b
  | |- in_bounds (match ?x with (_, _) => _ end) => destruct x
  | |- in_bounds (Str.int _) => apply int_in_bounds
  | |- in_bounds (Ok _) => discriminate
  | |- in_bounds (Raise _) => discriminate
  | |- in_bounds OutOfFuel => discriminate
  | |- in_bounds deselectchar_display => discriminate
  end.

Lemma index_after_prefix (s p : string) (k : nat) :
  Str.startswith s p = true -> (1 <= k <= String.length p)%nat ->
  in_bounds (Str.index_from_end s k).
Proof.
  intros H K. apply index_from_end_in_bounds.
  pose proof (startswith_length s p H). lia.
Qed.

Lemma chain_cmd_in_bounds (cmd : string) (st : list action * bool) :
  in_bounds (chain_cmd cmd st).
Proof.
  unfold chain_cmd. destruct st as [ret armed].
  destruct (Str.startswith cmd "useskill") eqn:U.
  { apply in_bounds_bind;
      [apply (index_after_prefix _ _ _ U); cbn; lia | intros ? _].
    repeat bounds_step. }
  destruct (Str.startswith cmd "target") eqn:T; [|discriminate].
  apply in_bounds_bind;
    [apply (index_after_prefix _ _ _ T); cbn; lia | intros ? _].
  repeat bounds_step.
Qed.

Lemma chain_loop_in_bounds (chains : list string) (st : list action * bool) :
  in_bounds (chain_loop chains st).
Proof.
  revert st. induction chains as [|cmd chains IH]; intros st; cbn [chain_loop].
  - discriminate.
  - apply in_bounds_bind; [apply chain_cmd_in_bounds | intros; apply IH].
Qed.

(** The first segment of a line that starts with [character] is not
    empty. *)
Lemma _parse_character_in_bounds (line : string) (sel : bool) :
  Str.startswith line "character" = true ->
  in_bounds (_parse_character line sel).
Proof.
  intros H. unfold _parse_character.
  destruct line as [|c line]; [discriminate|]. cbn [Str.startswith] in H.
  apply andb_true_iff in H. destruct H as [H _].
  apply Ascii.eqb_eq in H. subst c. cbn [Str.split].
  change (Ascii.eqb "c" ".") with false. cbv iota.
  assert (F : forall first chains,
             in_bounds
               (c <- Str.index_from_end (String "c" first) 1 ;;
                char_idx <- Str.int c ;;
                (if negb (in_tuple 1 4 char_idx)
                 then Raise (ValueError_character char_idx)
                 else
                   let ret := if sel then [changechar (char_idx - 1)]
                              else [selectchar (char_idx - 1)] in
                   st <- chain_loop chains (ret, false) ;; Ok (fst st)))).
  { intros first chains.
    apply in_bounds_bind;
      [apply index_from_end_in_bounds; cbn; lia | intros ? _].
    apply in_bounds_bind; [apply int_in_bounds | intros ? _].
    destruct (negb _); [discriminate|]. cbv zeta.
    apply in_bounds_bind; [apply chain_loop_in_bounds | discriminate]. }
  destruct (Str.split "." line); apply F.
Qed.

Lemma turn_loop_in_bounds (lines : list string) (sel : bool)
    (acc : list action) :
  in_bounds (turn_loop lines sel acc).
Proof.
  revert sel acc. induction lines as [|line lines IH]; intros sel acc;
    cbn [turn_loop]; [discriminate|].
  destruct (Str.startswith line "character") eqn:T1.
  { apply in_bounds_bind;
      [now apply _parse_character_in_bounds | intros; apply IH]. }
  destruct (Str.startswith line "wait") eqn:T2.
  { apply in_bounds_bind; [apply int_in_bounds | intros; apply IH]. }
  destruct (Str.startswith line "summon") eqn:T3.
  { apply in_bounds_bind;
      [apply (index_after_prefix _ _ _ T3); cbn; lia | intros ? _].
    apply in_bounds_bind; [apply int_in_bounds | intros ? _].
    destruct (negb _); [discriminate|]. destruct sel; [discriminate | apply IH]. }
  destruct (String.eqb line "attack"); [apply IH|].
  destruct (String.eqb line "enablefullauto");
    [destruct sel; [discriminate | apply IH]|].
  destruct (String.eqb line "end"); [discriminate | apply IH].
Qed.

Lemma _parse_turn_in_bounds (first : string) (lines : list string) :
  Str.startswith first "turn" = true -> in_bounds (_parse_turn (first :: lines)).
Proof.
  intros H. unfold _parse_turn.
  apply in_bounds_bind;
    [apply (index_after_prefix _ _ _ H); cbn; lia | intros ? _].
  apply in_bounds_bind; [apply int_in_bounds | intros ? _].
  apply in_bounds_bind; [apply turn_loop_in_bounds | intros [? ?] _].
  discriminate.
Qed.

Lemma combact_loop_in_bounds (fuel : nat) (remain : list string) (acc : turns) :
  in_bounds (combact_loop fuel remain acc).
Proof.
  revert remain acc. induction fuel as [|fuel IH]; intros remain acc;
    cbn [combact_loop]; [discriminate|].
  destruct remain as [|line remain]; [discriminate|].
  destruct (Str.startswith line "turn") eqn:T; [|discriminate].
  apply in_bounds_bind; [now apply _parse_turn_in_bounds|].
  intros [[r t] a] _. apply IH.
Qed.

Lemma _parse_combact_in_bounds (text : list string) :
  in_bounds (_parse_combact text).
Proof.
  unfold _parse_combact. destruct text; [discriminate|].
  apply combact_loop_in_bounds.
Qed.

Lemma _parse_repeat_in_bounds (txt : list string) :
  in_bounds (_parse_repeat txt).
Proof.
  unfold _parse_repeat. destruct txt as [|line txt]; [discriminate|].
  destruct (Str.startswith line "repeat:") eqn:T; cbn [negb]; [|discriminate].
  apply in_bounds_bind;
    [apply (index_after_prefix _ _ _ T); cbn; lia | intros ? _].
  apply in_bounds_bind; [apply int_in_bounds | discriminate].
Qed.

End Bounds.

Lemma _parse_summon_in_bounds (txt : list string) :
  in_bounds (_parse_summon txt).
Proof.
  destruct txt as [|line rest]; [discriminate|].
  destruct (Str.startswith line "summon:") eqn:T.
  - rewrite (_parse_summon_name line rest T). discriminate.
  - unfold _parse_summon. rewrite T. discriminate.
Qed.

Lemma cycle_in_bounds (s : locals) :
  remain_txt s <> [] -> in_bounds (cycle s).
Proof.
  intros N. unfold cycle. destruct (_parse_url (remain_txt s)) as [r1 u].
  apply Index.in_bounds_bind; [apply _parse_summon_in_bounds|].
  intros [r2 sm] _.
  apply Index.in_bounds_bind; [apply Bounds._parse_repeat_in_bounds|].
  intros [r3 rp] _.
  apply Index.in_bounds_bind; [apply Bounds._parse_combact_in_bounds|].
  intros [r4 acts] _. cbn [remain_txt with_actions with_remain].
  destruct (Nat.eqb_spec (List.length (remain_txt s)) (List.length r4)) as [E|_];
    [|discriminate].
  unfold pop_first. cbn [remain_txt with_actions with_remain].
  destruct r4; [|discriminate].
  destruct (remain_txt s); [now elim N | discriminate E].
Qed.

(** X7.  Compiling a script never fails with an [IndexError]: every
    character the parser picks by position ([line[-1]], [line[-2]], the
    field after the colon) and every [pop] is covered by the test on the
    start of the line or on the number of lines made just before.  The
    exceptions [parse_raids] can raise are the [ValueError]s, the
    [RuntimeError] for a target without a skill, and the [TypeError]. *)
Theorem parse_raids_never_index_error (txt : list string) (e : exn) :
  parse_raids txt = Raise e -> e <> IndexError.
Proof.
  assert (L : forall fuel s, in_bounds (raids_loop fuel s)).
  { induction fuel as [|fuel IH]; intros s; cbn [raids_loop];
      destruct (remain_txt s) eqn:E; try discriminate.
    apply Index.in_bounds_bind; [|intros; apply IH].
    apply cycle_in_bounds. now rewrite E. }
  intros H ->. revert H. unfold parse_raids.
  apply Index.in_bounds_bind; [apply L | discriminate].
Qed.

Lemma parse_raids_never_index_error_witness :
  ValueError_literal <> IndexError /\ TypeError_unhashable <> IndexError.
Proof.
  split.
  - exact (parse_raids_never_index_error ["http://raid"; "repeat:"] _ eq_refl).
  - exact (parse_raids_never_index_error
             ["turn 1:"; "character1"; "enablefullauto"; "end"] _ eq_refl).
Defined.

(** X8.  A script in which no line starts with [http], [summon:],
    [repeat:] or [turn] once preprocessed (an empty script, or one of
    comments only, among them) compiles without error to a single raid
    block with id 1, no URL, no summon, no repeat count and no turn. *)
Theorem unrecognised_script_compiles_to_empty_raid (txt : list string) :
  Forall (fun line => unrecognised line = true) (pre_parse txt) ->
  parse_raids txt = Ok [(1%Z, mk_raid no_info Dict.empty)].
Proof.
  intros U. unfold parse_raids, start.
  assert (L : forall lines fuel,
             Forall (fun line => unrecognised line = true) lines ->
             (List.length lines <= fuel)%nat ->
             raids_loop fuel (mk_locals lines Dict.empty 0 no_info Dict.empty)
             = Ok (mk_locals [] Dict.empty 0 no_info Dict.empty)).
  { clear. intros lines fuel H. revert fuel.
    induction H as [|line lines P _ IH]; intros fuel F.
    - destruct fuel; reflexivity.
    - destruct fuel as [|fuel]; [cbn in F; lia|]. cbn [raids_loop remain_txt].
      unfold unrecognised in P. apply negb_true_iff in P.
      repeat (apply orb_false_iff in P; destruct P as [P ?]).
      rewrite (Cycle.cycle_unrecognized
                 (mk_locals (line :: lines) Dict.empty 0 no_info Dict.empty)
                 line lines eq_refl) by assumption.
      cbn [bind]. apply IH. cbn in F. lia. }
  rewrite (L _ _ U (Nat.le_refl _)). reflexivity.
Qed.

Lemma unrecognised_script_compiles_to_empty_raid_witness :
  parse_raids [] = Ok [(1%Z, mk_raid no_info Dict.empty)] /\
  parse_raids ["# only a comment"; "   "; "Attack"; "suRmmon:Kaguya"]
  = Ok [(1%Z, mk_raid no_info Dict.empty)].
Proof.
  split.
  - exact (unrecognised_script_compiles_to_empty_raid [] (Forall_nil _)).
  - exact (unrecognised_script_compiles_to_empty_raid
             ["# only a comment"; "   "; "Attack"; "suRmmon:Kaguya"]
             ltac:(repeat constructor)).
Defined.

(** *** Runs of turn blocks and what a raid keeps of them *)

Module Runs.
Import OutcomeFacts.

Lemma _parse_turn_digit (text rest : list string) (t : Z) (acts : list action) :
  _parse_turn text = Ok (rest, t, acts) -> below 10 t.
Proof.
  unfold _parse_turn. destruct text as [|first lines]; [discriminate|].
  intros H. bind_inv H. bind_inv H. bind_inv H. destruct a1 as [r a'].
  injection H as _ <- _.
  destruct (Index.index_from_end_char _ _ _ Ha) as [c ->].
  rewrite Index.int_char in Ha0.
  destruct (Str.digit c) as [d|] eqn:D; [|discriminate].
  injection Ha0 as <-. exact (Index.digit_below_10 c d D).
Qed.

Lemma _parse_repeat_digit (txt rest : list string) (n : Z) :
  _parse_repeat txt = Ok (rest, Some n) -> below 10 n.
Proof.
  unfold _parse_repeat. destruct txt as [|line txt]; [discriminate|].
  destruct (negb _); [discriminate|].
  intros H. bind_inv H. bind_inv H. injection H as _ <-.
  destruct (Index.index_from_end_char _ _ _ Ha) as [c ->].
  rewrite Index.int_char in Ha0.
  destruct (Str.digit c) as [d|] eqn:D; [|discriminate].
  injection Ha0 as <-. exact (Index.digit_below_10 c d D).
Qed.

Lemma keys_set_Forall (P : Z -> Prop) (k : Z) (v : list action) (d : turns) :
  P k -> Forall P (Dict.keys d) -> Forall P (Dict.keys (Dict.set k v d)).
Proof.
  intros Pk H. rewrite DictFacts.keys_set. destruct (existsb _ _); [exact H|].
  apply Forall_app. split; [exact H | now constructor].
Qed.

Lemma combact_loop_keys (fuel : nat) (remain : list string) (acc : turns)
    (rest : list string) (d : turns) :
  combact_loop fuel remain acc = Ok (rest, d) ->
  NoDup (Dict.keys acc) -> Forall (below 10) (Dict.keys acc) ->
  NoDup (Dict.keys d) /\ Forall (below 10) (Dict.keys d).
Proof.
  revert remain acc. induction fuel as [|fuel IH]; intros remain acc;
    cbn [combact_loop]; [discriminate|].
  destruct remain as [|line remain].
  - intros H. injection H as _ <-. now split.
  - destruct (Str.startswith line "turn").
    + intros H N F. bind_inv H. destruct a as [[r t] acts].
      apply (IH _ _ H).
      * now apply DictFacts.keys_set_NoDup.
      * apply keys_set_Forall; [exact (_parse_turn_digit _ _ _ _ Ha) | exact F].
    + intros H. injection H as _ <-. now split.
Qed.

Lemma combact_loop_stops (fuel : nat) (remain : list string) (acc : turns)
    (rest : list string) (d : turns) (line : string) (more : list string) :
  combact_loop fuel remain acc = Ok (rest, d) ->
  rest = line :: more -> Str.startswith line "turn" = false.
Proof.
  revert remain acc. induction fuel as [|fuel IH]; intros remain acc;
    cbn [combact_loop]; [discriminate|].
  destruct remain as [|l remain].
  - intros H E. injection H as <- _. discriminate E.
  - destruct (Str.startswith l "turn") eqn:T.
    + intros H E. bind_inv H. destruct a as [[r t] acts]. exact (IH _ _ H E).
    + intros H E. injection H as <- _. injection E as <- _. exact T.
Qed.

(** Ten distinct digits at most. *)
Lemma digits_at_most_ten (l : list Z) :
  NoDup l -> Forall (below 10) l -> (List.length l <= 10)%nat.
Proof.
  intros N F.
  change 10%nat with (List.length (map Z.of_nat (seq 0 10))).
  apply NoDup_incl_length; [exact N|]. intros k I.
  rewrite Forall_forall in F. specialize (F k I). unfold below in F.
  apply in_map_iff. exists (Z.to_nat k). split; [lia|]. apply in_seq. lia.
Qed.

Lemma one_run_keys (script : list string) (d : turns) :
  one_run script d ->
  NoDup (Dict.keys d) /\ Forall (below 10) (Dict.keys d).
Proof.
  intros (text & rest & _ & H). rewrite Combact._parse_combact_loop in H.
  apply (combact_loop_keys _ _ _ _ _ H); constructor.
Qed.

Lemma suffix_of_refl (l : list string) : suffix_of l l.
Proof. now exists []. Qed.

Lemma suffix_of_app (used l script : list string) :
  suffix_of (used ++ l) script -> suffix_of l script.
Proof. intros [p ->]. exists (p ++ used). now rewrite <- app_assoc. Qed.

Lemma suffix_of_nil (script : list string) : suffix_of [] script.
Proof. exists script. now rewrite app_nil_r. Qed.

Lemma Forall_set {V : Type} (Q : V -> Prop) (k : Z) (v : V) (d : Dict.t V) :
  Q v -> Forall (fun kr => Q (snd kr)) d ->
  Forall (fun kr => Q (snd kr)) (Dict.set k v d).
Proof.
  intros Qv H. induction H as [|[k0 v0] d Q0 Hd IH]; cbn [Dict.set].
  - now repeat constructor.
  - destruct (k =? k0)%Z; constructor; assumption.
Qed.

Lemma tidy_on_url (script : list string) (u : option string) (s : locals) :
  one_run script (combact_actions s) ->
  Forall (fun kr => one_run script (combact_actions_of (snd kr)))
    (list_of_raids s) ->
  repeat_ok (raid_info s) ->
  Forall (fun kr => repeat_ok (raid_info_of (snd kr))) (list_of_raids s) ->
  Forall (fun kr => one_run script (combact_actions_of (snd kr)))
    (list_of_raids (on_url u s)) /\
  Forall (fun kr => repeat_ok (raid_info_of (snd kr)))
    (list_of_raids (on_url u s)) /\
  repeat_ok (raid_info (on_url u s)).
Proof.
  intros Tn Td Tr Trs.
  destruct u as [line|]; [|exact (conj Td (conj Trs Tr))].
  unfold on_url. destruct (url (raid_info s)).
  - cbn [with_info fresh_raid conclude list_of_raids raid_info].
    split; [|split].
    + now apply (Forall_set (fun r => one_run script (combact_actions_of r))).
    + now apply (Forall_set (fun r => repeat_ok (raid_info_of r))).
    + intros n. discriminate.
  - cbn [with_info list_of_raids raid_info].
    split; [exact Td | split; [exact Trs | exact Tr]].
Qed.

Lemma tidy_before_pop (script : list string) (s : locals)
    (r1 : list string) (u : option string) (r2 : list string)
    (sm : option string) (r3 : list string) (rp : option Z)
    (r4 : list string) (acts : turns) :
  tidy script s ->
  suffix_of r3 script -> suffix_of r4 script ->
  _parse_combact r3 = Ok (r4, acts) ->
  (forall n, rp = Some n -> below 10 n) ->
  tidy script (before_pop s r1 u r2 sm r3 rp r4 acts).
Proof.
  intros T S3 S4 Hc Hn.
  destruct (tidy_on_url script u (with_remain r1 s)) as (D & Rs & R);
    try (destruct T; assumption).
  unfold before_pop. constructor.
  - exact S4.
  - now exists r3, r4.
  - destruct rp, sm; exact D.
  - destruct rp as [n|], sm; cbn; intros m E; try (now apply R);
      injection E as <-; now apply Hn.
  - destruct rp, sm; exact Rs.
Qed.

Lemma cycle_tidy (script : list string) (s s' : locals) :
  tidy script s -> cycle s = Ok s' -> tidy script s'.
Proof.
  intros T H. pose proof (tidy_remain _ _ T) as S.
  destruct (Cycle.cycle_consumes _ _ H) as (used & _ & E).
  assert (S' : suffix_of (remain_txt s') script).
  { rewrite E in S. exact (suffix_of_app _ _ _ S). }
  apply Cycle.cycle_shape in H.
  destruct H as (r1 & u & r2 & sm & r3 & rp & r4 & acts & Hu & Hs & Hr & Hc & H).
  assert (S1 : suffix_of r1 script).
  { destruct (Cycle._parse_url_cases _ _ _ Hu) as [[-> _]|(l & E1 & _)];
      [exact S|]. rewrite E1 in S. exact (suffix_of_app [l] _ _ S). }
  assert (S2 : suffix_of r2 script).
  { destruct (Cycle._parse_summon_cases _ _ _ Hs) as [[-> _]|(l & ? & -> & _)];
      [exact S1 | exact (suffix_of_app [l] _ _ S1)]. }
  assert (S3 : suffix_of r3 script).
  { destruct (Cycle._parse_repeat_cases _ _ _ Hr) as [[-> _]|(l & ? & -> & _)];
      [exact S2 | exact (suffix_of_app [l] _ _ S2)]. }
  assert (S4 : suffix_of r4 script).
  { destruct (Consume._parse_combact_suffix _ _ _ Hc) as [u4 ->].
    exact (suffix_of_app _ _ _ S3). }
  assert (T4 : tidy script (before_pop s r1 u r2 sm r3 rp r4 acts)).
  { apply tidy_before_pop; try assumption.
    intros n ->. exact (_parse_repeat_digit _ _ _ Hr). }
  cbv zeta in H. destruct H as [[_ H] | [_ ->]]; [|exact T4].
  apply Raids.pop_first_same in H. rewrite H.
  destruct T4. now constructor.
Qed.

Lemma raids_loop_tidy (script : list string) (fuel : nat) (s s' : locals) :
  tidy script s -> raids_loop fuel s = Ok s' -> tidy script s'.
Proof.
  revert s. induction fuel as [|fuel IH]; intros s T; cbn [raids_loop];
    destruct (remain_txt s); intros H; try discriminate;
    try (now injection H as <-).
  bind_inv H. exact (IH _ (cycle_tidy _ _ _ T Ha) H).
Qed.

Lemma tidy_start (txt : list string) : tidy (pre_parse txt) (start txt).
Proof.
  constructor; cbn.
  - apply suffix_of_refl.
  - exists [], []. split; [apply suffix_of_nil | reflexivity].
  - constructor.
  - intros n. discriminate.
  - constructor.
Qed.

End Runs.

(** X9.  A run of turn blocks stops at the first line that does not start
    with [turn]: the lines handed back are the end of the input and, when
    there are any, begin with such a line.  The mapping of the run has
    every turn number once, each between 0 and 9, so it holds ten turns at
    most. *)
Theorem run_stops_at_other_line (text rest : list string) (d : turns) :
  _parse_combact text = Ok (rest, d) ->
  suffix_of rest text /\
  (forall line more, rest = line :: more ->
                     Str.startswith line "turn" = false) /\
  NoDup (Dict.keys d) /\
  Forall (below 10) (Dict.keys d) /\
  (List.length d <= 10)%nat.
Proof.
  intros H. split; [exact (Consume._parse_combact_suffix _ _ _ H)|].
  rewrite Combact._parse_combact_loop in H. split.
  - intros line more. exact (Runs.combact_loop_stops _ _ _ _ _ _ _ H).
  - destruct (Runs.combact_loop_keys _ _ _ _ _ H (NoDup_nil _) (Forall_nil _))
      as [N F].
    split; [exact N|]. split; [exact F|].
    unfold Dict.keys in N, F. rewrite <- (length_map fst d).
    now apply Runs.digits_at_most_ten.
Qed.

Lemma run_stops_at_other_line_witness :
  exists d,
    _parse_combact ["turn 1:"; "attack"; "end"; "turn 2:"; "end";
                    "summon:kaguya"; "turn 3:"; "end"]
    = Ok (["summon:kaguya"; "turn 3:"; "end"], d) /\
    Dict.keys d = [1%Z; 2%Z] /\ (List.length d <= 10)%nat.
Proof.
  eexists. split; [vm_compute; reflexivity|]. split; [reflexivity|].
  exact (proj2 (proj2 (proj2 (proj2
    (run_stops_at_other_line
       ["turn 1:"; "attack"; "end"; "turn 2:"; "end";
        "summon:kaguya"; "turn 3:"; "end"] _ _ eq_refl))))).
Defined.

(** X10.  The turn mapping of every raid of a compiled script is what one
    call of [_parse_combact] returns on the preprocessed script from some
    line on: it is one run of adjacent turn blocks (or empty), never the
    union of blocks that other lines separate. *)
Theorem raid_turns_from_one_run (txt : list string) (out : Dict.t raid) :
  parse_raids txt = Ok out ->
  Forall (fun kr => one_run (pre_parse txt) (combact_actions_of (snd kr))) out.
Proof.
  unfold parse_raids. intros H. bind_inv H.
  assert (Eo : list_of_raids (conclude a) = out) by (now injection H).
  clear H. subst out.
  destruct (Runs.raids_loop_tidy _ _ _ _ (Runs.tidy_start txt) Ha)
    as [_ Tn Td _ _].
  cbn [conclude list_of_raids].
  now apply (Runs.Forall_set
               (fun r => one_run (pre_parse txt) (combact_actions_of r))).
Qed.

Lemma raid_turns_from_one_run_witness :
  Forall (fun kr => one_run (pre_parse test_case) (combact_actions_of (snd kr)))
    test_result.
Proof.
  exact (raid_turns_from_one_run test_case test_result
           ltac:(vm_compute; reflexivity)).
Defined.

(** X11.  In a compiled script every repeat count and every turn number is
    a single digit, from 0 to 9, and no raid has the same turn number
    twice: a raid holds ten turns at most, and a count or a turn number of
    two digits in the script never reaches the output as written. *)
Theorem compiled_numbers_are_digits (txt : list string) (out : Dict.t raid) :
  parse_raids txt = Ok out ->
  Forall (fun kr =>
            repeat_ok (raid_info_of (snd kr)) /\
            NoDup (Dict.keys (combact_actions_of (snd kr))) /\
            Forall (below 10) (Dict.keys (combact_actions_of (snd kr))))
    out.
Proof.
  unfold parse_raids. intros H. bind_inv H.
  assert (Eo : list_of_raids (conclude a) = out) by (now injection H).
  clear H. subst out.
  destruct (Runs.raids_loop_tidy _ _ _ _ (Runs.tidy_start txt) Ha)
    as [_ Tn Td Tr Trs].
  cbn [conclude list_of_raids].
  apply (Runs.Forall_set
           (fun r => repeat_ok (raid_info_of r) /\
                     NoDup (Dict.keys (combact_actions_of r)) /\
                     Forall (below 10) (Dict.keys (combact_actions_of r)))).
  - split; [exact Tr | exact (Runs.one_run_keys _ _ Tn)].
  - rewrite Forall_forall in *. intros kr I. split; [exact (Trs kr I)|].
    exact (Runs.one_run_keys _ _ (Td kr I)).
Qed.

Lemma compiled_numbers_are_digits_witness :
  parse_raids ["http://raid"; "repeat:12"; "turn 10:"; "attack"; "end"]
  = Ok [(1%Z, mk_raid (mk_info (Some "http://raid") None (Some 2%Z))
                [(0%Z, [Pair "attack"])])] /\
  Forall (fun kr =>
            repeat_ok (raid_info_of (snd kr)) /\
            NoDup (Dict.keys (combact_actions_of (snd kr))) /\
            Forall (below 10) (Dict.keys (combact_actions_of (snd kr))))
    [(1%Z, mk_raid (mk_info (Some "http://raid") None (Some 2%Z))
             [(0%Z, [Pair "attack"])])].
Proof.
  split; [vm_compute; reflexivity|].
  exact (compiled_numbers_are_digits
           ["http://raid"; "repeat:12"; "turn 10:"; "attack"; "end"] _
           ltac:(vm_compute; reflexivity)).
Defined.

Lemma pre_parse_normal (text : list string) :
  Forall (fun line => normalize line = line) (pre_parse text).
Proof.
  induction text as [|raw text IH]; [constructor|].
  rewrite PreParse.pre_parse_cons. destruct (drops raw); [exact IH|].
  constructor; [apply PreParse.normalize_idem | exact IH].
Qed.

Lemma in_order_In {A : Type} (l1 l2 : list A) (x : A) :
  in_order l1 l2 -> In x l1 -> In x l2.
Proof.
  intros H. induction H; cbn [In]; intros I; [exact I | right; auto |].
  destruct I as [->|I]; [now left | right; auto].
Qed.

(** X12.  Every URL of a compiled script is a whole line of the
    preprocessed script that starts with [http]: it is the line of the
    input trimmed and lower-cased, so upper-case letters of a URL are not
    kept. *)
Theorem compiled_urls_are_normalized (txt : list string) (out : Dict.t raid) :
  parse_raids txt = Ok out ->
  Forall (fun u => In u (pre_parse txt) /\
                   Str.startswith u "http" = true /\
                   Str.lower u = u /\ Str.strip u = u)
    (raid_urls out).
Proof.
  unfold parse_raids. intros H. bind_inv H.
  assert (Eo : list_of_raids (conclude a) = out) by (now injection H).
  clear H. subst out.
  destruct (Raids.raids_loop_urls _ _ _ (Raids.numbered_start txt) Ha)
    as (N & new & S' & O).
  rewrite (Raids.raid_urls_conclude a N), S'.
  change (seen_urls (start txt)) with (@nil string). cbn [app].
  change (remain_txt (start txt)) with (pre_parse txt) in O.
  apply Forall_forall. intros u I.
  apply (in_order_In _ _ _ O), filter_In in I. destruct I as [I Hu].
  split; [exact I|]. split; [exact Hu|].
  pose proof (pre_parse_normal txt) as P. rewrite Forall_forall in P.
  specialize (P u I). unfold normalize in P. split.
  - rewrite <- P at 1. rewrite StrFacts.lower_idem. exact P.
  - rewrite <- P at 1.
    rewrite StrFacts.strip_lower, StrFacts.strip_idem. exact P.
Qed.

Lemma compiled_urls_are_normalized_witness :
  parse_raids ["  HTTPS://Game.Example/#Quest/1  "]
  = Ok [(1%Z, mk_raid (mk_info (Some "https://game.example/#quest/1") None None)
                [])] /\
  Forall (fun u => In u (pre_parse ["  HTTPS://Game.Example/#Quest/1  "]) /\
                   Str.startswith u "http" = true /\
                   Str.lower u = u /\ Str.strip u = u)
    ["https://game.example/#quest/1"].
Proof.
  split; [vm_compute; reflexivity|].
  exact (compiled_urls_are_normalized ["  HTTPS://Game.Example/#Quest/1  "] _
           ltac:(vm_compute; reflexivity)).
Defined.

(** *** The caller *)

Module Caller.
Import OutcomeFacts GenericV2.

Lemma compiled_repeat_ok (txt : list string) (out : Dict.t raid) :
  parse_raids txt = Ok out ->
  Forall (fun kr => repeat_ok (raid_info_of (snd kr))) out.
Proof.
  unfold parse_raids. intros H. bind_inv H.
  assert (Eo : list_of_raids (conclude a) = out) by (now injection H).
  clear H. subst out.
  destruct (Runs.raids_loop_tidy _ _ _ _ (Runs.tidy_start txt) Ha)
    as [_ _ _ Tr Trs].
  cbn [conclude list_of_raids].
  now apply (Runs.Forall_set (fun r => repeat_ok (raid_info_of r))).
Qed.

Lemma py_range_length (lo hi : Z) :
  List.length (py_range lo hi) = Z.to_nat (hi - lo).
Proof. unfold py_range. now rewrite length_map, length_seq. Qed.

Local Notation "'t_load'" := (fun acts w => Ok (record_call (LoadActions acts) w)).
Local Notation "'t_goto'" := (fun url w => Ok (record_call (Goto url) w)).
Local Notation "'t_battle'" := (fun ss w => Ok (record_call (SingleBattle ss) w)).
Local Notation "'t_exit'" :=
  (fun b url w => Ok (record_call (BattleExit b url) w)).
Local Notation "'t_delay'" := (fun w => Ok (record_call DelayBetweenRuns w)).
Local Notation "'t_check'" := (fun w => Ok (record_call SecurityCheck w)).
Local Notation "'t_print'" := (fun m => record_call (Print m)).

Lemma traced_round (url : option string) (ss : list (option string)) (i : Z)
    (w : traced) :
  exists w',
    battle_round traced t_battle t_exit t_delay draw t_check t_print url ss i w
    = Ok w' /\
    battles (fst w') = S (battles (fst w)).
Proof.
  unfold battle_round. cbn [bind]. unfold draw.
  destruct w as [calls [|[|] draws]]; cbn [snd fst record_call];
    eexists; split; reflexivity.
Qed.

Lemma traced_rounds (url : option string) (ss : list (option string))
    (rounds : list Z) (w : traced) :
  exists w',
    battle_rounds traced t_battle t_exit t_delay draw t_check t_print url ss
      rounds w = Ok w' /\
    battles (fst w') = (List.length rounds + battles (fst w))%nat.
Proof.
  revert w. induction rounds as [|i rounds IH]; intros w; cbn [battle_rounds].
  - now exists w.
  - destruct (traced_round url ss i w) as (w1 & -> & B1). cbn [bind].
    destruct (IH w1) as (w' & -> & B'). exists w'. split; [reflexivity|].
    rewrite B', B1. cbn [List.length]. lia.
Qed.

Lemma traced_raid (st : settings) (r : raid) (w : traced) :
  exists w',
    run_raid traced st t_load t_goto t_battle t_exit t_delay draw t_check
      t_print r w = Ok w' /\
    battles (fst w') = (Z.to_nat (repeat_of st r - 1) + battles (fst w))%nat.
Proof.
  unfold run_raid, get_info. cbn [bind].
  match goal with
  | |- context [battle_rounds _ _ _ _ _ _ _ ?u ?s ?rs ?w0] =>
      destruct (traced_rounds u s rs w0) as (w' & -> & B)
  end.
  exists w'. split; [reflexivity|].
  rewrite B, py_range_length. reflexivity.
Qed.

Lemma traced_raids (st : settings) (raids : Dict.t raid) (w : traced) :
  exists w',
    run_raids traced st t_load t_goto t_battle t_exit t_delay draw t_check
      t_print raids w = Ok w' /\
    battles (fst w')
    = (list_sum (map (fun kr => Z.to_nat (repeat_of st (snd kr) - 1)) raids)
       + battles (fst w))%nat.
Proof.
  revert w. induction raids as [|[k r] raids IH]; intros w; cbn [run_raids].
  - now exists w.
  - destruct (traced_raid st r w) as (w1 & -> & B1). cbn [bind].
    destruct (IH w1) as (w' & -> & B'). exists w'. split; [reflexivity|].
    rewrite B', B1. unfold list_sum. cbn [map fold_right snd]. lia.
Qed.

End Caller.

(** X13.  For a raid of a compiled script, [get_info] hands the raid's turn
    mapping to the combat mode and returns the raid's URL, a list of
    exactly one summon, the raid's own ([None] when the script names
    none), never [Settings.summon_list], and as repeat count the
    script's digit or, when the script gives none,
    [Settings.item_amount_to_farm]. *)
Theorem get_info_of_compiled_raid (World : Type) (st : GenericV2.settings)
    (load_actions : turns -> World -> outcome World)
    (txt : list string) (out : Dict.t raid) (k : Z) (r : raid)
    (w w' : World) (u : option string) (ss : list (option string)) (rp : Z) :
  parse_raids txt = Ok out ->
  In (k, r) out ->
  GenericV2.get_info World st load_actions r w = Ok (w', (u, ss, rp)) ->
  load_actions (combact_actions_of r) w = Ok w' /\
  u = url (raid_info_of r) /\
  ss = [summon (raid_info_of r)] /\
  ((repeat (raid_info_of r) = None /\ rp = GenericV2.item_amount_to_farm st) \/
   (repeat (raid_info_of r) = Some rp /\ below 10 rp)).
Proof.
  intros Hp I H. unfold GenericV2.get_info in H. bind_inv H.
  injection H as <- <- <- <-. repeat (split; [first [assumption | reflexivity]|]).
  pose proof (Caller.compiled_repeat_ok txt out Hp) as R.
  rewrite Forall_forall in R. specialize (R (k, r) I). cbn [snd] in R.
  destruct (repeat (raid_info_of r)) as [n|] eqn:E.
  - right. split; [reflexivity | now apply R].
  - left. now split.
Qed.

Lemma get_info_of_compiled_raid_witness :
  GenericV2.get_info (list turns) (GenericV2.mk_settings [] ["kaguya"] 5)
    (fun acts w => Ok (acts :: w))
    (mk_raid (mk_info (Some "http://raid") None None) []) []
  = Ok ([[]], (Some "http://raid", [None], 5%Z)) /\
  [@None string] = [summon (mk_info (Some "http://raid") None None)].
Proof.
  split; [reflexivity|].
  exact (proj1 (proj2 (proj2
    (get_info_of_compiled_raid (list turns)
       (GenericV2.mk_settings [] ["kaguya"] 5)
       (fun acts w => Ok (acts :: w))
       ["http://raid"] _ 1%Z
       (mk_raid (mk_info (Some "http://raid") None None) []) [] _ _ _ _
       eq_refl (or_introl eq_refl) eq_refl)))).
Defined.

(** X14.  When the script compiles and every call outside returns,
    [GenericV2.start] fights each raid one time less than its repeat
    count: [range(1, repeat)] has [repeat - 1] elements, and none for a
    count of 1 or 0.  The battles of a run number the sum of
    [repeat - 1] over the raids, whatever the random draws. *)
Theorem start_fights_repeat_minus_one (st : GenericV2.settings)
    (out : Dict.t raid) (draws : list bool) :
  parse_raids (GenericV2.combat_script st) = Ok out ->
  exists calls draws',
    GenericV2.traced_start st ([], draws) = Ok (calls, draws') /\
    GenericV2.battles calls
    = list_sum (map (fun kr =>
                       Z.to_nat (GenericV2.repeat_of st (snd kr) - 1)) out).
Proof.
  intros Hp. unfold GenericV2.traced_start, GenericV2.start. rewrite Hp.
  cbn [bind].
  match goal with
  | |- context [GenericV2.run_raids _ _ _ _ _ _ _ _ _ _ _ ?w0] =>
      destruct (Caller.traced_raids st out w0) as ([calls draws'] & -> & B)
  end.
  cbn [bind]. eexists _, _. split; [reflexivity|].
  cbn [fst] in B. unfold GenericV2.record_call. cbn [fst].
  unfold GenericV2.battles in *. cbn [filter]. rewrite B. cbn. lia.
Qed.

Lemma start_fights_repeat_minus_one_witness :
  exists calls draws',
    GenericV2.traced_start
      (GenericV2.mk_settings ["http://raid"; "repeat:1"; "turn 1:"; "end"]
         [] 5)
      ([], [true]) = Ok (calls, draws') /\
    GenericV2.battles calls = 0%nat.
Proof.
  destruct (start_fights_repeat_minus_one
              (GenericV2.mk_settings
                 ["http://raid"; "repeat:1"; "turn 1:"; "end"] [] 5)
              _ [true] eq_refl) as (calls & draws' & H & B).
  exists calls, draws'. split; [exact H | exact B].
Defined.

(** *** Scripts written in the order the passes read them *)

Module Canon.
Import OutcomeFacts.

Lemma starts_differ (l p q : string) (a b : ascii) :
  Str.startswith l (String a p) = true -> Ascii.eqb a b = false ->
  Str.startswith l (String b q) = false.
Proof.
  destruct l as [|c l]; cbn [Str.startswith]; [discriminate|].
  intros H N. apply andb_true_iff in H. destruct H as [H _].
  apply Ascii.eqb_eq in H. subst c. now rewrite N.
Qed.

Lemma _parse_url_line (u : string) (more : list string) :
  _parse_url [u] = ([], Some u) ->
  Str.startswith u "http" = true /\ _parse_url (u :: more) = (more, Some u).
Proof.
  unfold _parse_url. destruct (Str.startswith u "http"); cbn [negb];
    [now split | discriminate].
Qed.

Lemma _parse_summon_line (line name : string) (more : list string) :
  _parse_summon [line] = Ok ([], Some name) ->
  _parse_summon (line :: more) = Ok (more, Some name).
Proof.
  unfold _parse_summon. destruct (negb _); [discriminate|].
  destruct (Str.split ":" line) as [|? [|? ?]]; try discriminate.
  intros H. now injection H as <-.
Qed.

Lemma _parse_repeat_line (line : string) (n : Z) (more : list string) :
  _parse_repeat [line] = Ok ([], Some n) ->
  Str.startswith line "repeat:" = true /\
  _parse_repeat (line :: more) = Ok (more, Some n).
Proof.
  unfold _parse_repeat. destruct (Str.startswith line "repeat:"); cbn [negb];
    [|discriminate].
  intros H. bind_inv H. bind_inv H. injection H as <-.
  rewrite Ha. cbn [bind]. rewrite Ha0. now split.
Qed.

Lemma _parse_summon_skip (txt : list string) :
  (forall line more, txt = line :: more ->
                     Str.startswith line "summon:" = false) ->
  _parse_summon txt = Ok (txt, None).
Proof.
  intros H. destruct txt as [|line more]; [reflexivity|].
  unfold _parse_summon. now rewrite (H line more eq_refl).
Qed.

Lemma _parse_repeat_skip (txt : list string) :
  (forall line more, txt = line :: more ->
                     Str.startswith line "repeat:" = false) ->
  _parse_repeat txt = Ok (txt, None).
Proof.
  intros H. destruct txt as [|line more]; [reflexivity|].
  unfold _parse_repeat. now rewrite (H line more eq_refl).
Qed.

(** A run that [_parse_combact] reads whole is empty or begins with a
    turn. *)
Lemma run_head (run next : list string) (d : turns) :
  _parse_combact (run ++ next) = Ok (next, d) ->
  forall line more, run = line :: more -> Str.startswith line "turn" = true.
Proof.
  intros H line more ->. destruct (Str.startswith line "turn") eqn:T;
    [reflexivity|].
  cbn [app _parse_combact combact_loop] in H. rewrite T in H.
  injection H as E _. apply (f_equal (@List.length string)) in E.
  cbn [List.length] in E. rewrite length_app in E. lia.
Qed.

(** The front of what follows the fields of a section is a turn or a
    URL. *)
Lemma after_fields (run next : list string) (d : turns) (line : string)
    (more : list string) :
  _parse_combact (run ++ next) = Ok (next, d) -> url_next next ->
  run ++ next = line :: more ->
  Str.startswith line "turn" = true \/ Str.startswith line "http" = true.
Proof.
  intros H U E. destruct run as [|l run].
  - cbn [app] in E. subst next. now right.
  - cbn [app] in E. injection E as <- _. left.
    exact (run_head _ _ _ H l run eq_refl).
Qed.

Lemma before_pop_flat (s : locals) (r1 : list string) (u : option string)
    (r2 : list string) (sm : option string) (r3 : list string)
    (rp : option Z) (r4 : list string) (acts : turns) :
  before_pop s r1 u r2 sm r3 rp r4 acts
  = with_actions acts
      (with_remain r4 (on_repeat rp (on_summon sm (on_url u s)))).
Proof.
  unfold before_pop. destruct s, u as [line|], sm, rp; cbn; try reflexivity;
    destruct (url raid_info0); reflexivity.
Qed.

(** One pass reads one section. *)
Lemma cycle_section (s : locals) (sec : section) (next : list string) :
  remain_txt s = sec_lines sec ++ next ->
  url_next next ->
  _parse_url [sec_url sec] = ([], Some (sec_url sec)) ->
  (forall line name, sec_summon sec = Some (line, name) ->
                     _parse_summon [line] = Ok ([], Some name)) ->
  (forall line n, sec_repeat sec = Some (line, n) ->
                  _parse_repeat [line] = Ok ([], Some n)) ->
  _parse_combact (sec_run sec ++ next) = Ok (next, sec_turns sec) ->
  cycle s
  = Ok (with_actions (sec_turns sec)
          (with_remain next
             (on_repeat (value_of (sec_repeat sec))
                (on_summon (value_of (sec_summon sec))
                   (on_url (Some (sec_url sec)) s))))).
Proof.
  intros E U Hu Hs Hr Hc.
  destruct (_parse_url_line _ (line_of (sec_summon sec) ++
                               line_of (sec_repeat sec) ++ sec_run sec ++ next)
              Hu) as [Tu Eu].
  assert (Er : _parse_repeat (line_of (sec_repeat sec) ++ sec_run sec ++ next)
               = Ok (sec_run sec ++ next, value_of (sec_repeat sec))).
  { destruct (sec_repeat sec) as [[l n]|]; cbn [line_of value_of app].
    - exact (proj2 (_parse_repeat_line l n _ (Hr l n eq_refl))).
    - apply _parse_repeat_skip. intros line more X.
      destruct (after_fields _ _ _ _ _ Hc U X) as [T|T];
        apply (starts_differ _ _ _ _ _ T); reflexivity. }
  assert (Es : _parse_summon (line_of (sec_summon sec) ++
                              line_of (sec_repeat sec) ++ sec_run sec ++ next)
               = Ok (line_of (sec_repeat sec) ++ sec_run sec ++ next,
                     value_of (sec_summon sec))).
  { destruct (sec_summon sec) as [[l name]|]; cbn [line_of value_of app].
    - exact (_parse_summon_line l name _ (Hs l name eq_refl)).
    - apply _parse_summon_skip. intros line more X.
      destruct (sec_repeat sec) as [[l n]|]; cbn [line_of app] in X.
      + injection X as <- _.
        apply (starts_differ _ _ _ _ _
                 (proj1 (_parse_repeat_line l n [] (Hr l n eq_refl))));
          reflexivity.
      + destruct (after_fields _ _ _ _ _ Hc U X) as [T|T];
          apply (starts_differ _ _ _ _ _ T); reflexivity. }
  rewrite <- before_pop_flat with
    (r1 := line_of (sec_summon sec) ++ line_of (sec_repeat sec) ++
           sec_run sec ++ next)
    (r2 := line_of (sec_repeat sec) ++ sec_run sec ++ next)
    (r3 := sec_run sec ++ next).
  unfold cycle, before_pop. rewrite E. unfold sec_lines at 1.
  rewrite <- !app_comm_cons, <- !app_assoc, Eu.
  rewrite Cycle.remain_on_url. cbn [remain_txt with_remain].
  rewrite Es. cbn [bind].
  rewrite Cycle.remain_on_summon. cbn [remain_txt with_remain].
  rewrite Er. cbn [bind].
  rewrite Cycle.remain_on_repeat. cbn [remain_txt with_remain].
  rewrite Hc. cbn [bind remain_txt with_remain with_actions].
  destruct (Nat.eqb_spec (List.length (sec_lines sec ++ next))
              (List.length next)) as [L|_]; [|reflexivity].
  unfold sec_lines in L. cbn [app List.length] in L.
  rewrite !length_app in L. lia.
Qed.

Lemma script_of_cons (sec : section) (secs : list section) :
  script_of (sec :: secs) = sec_lines sec ++ script_of secs.
Proof. reflexivity. Qed.

Lemma url_next_script (secs : list section) :
  canonical secs -> url_next (script_of secs).
Proof.
  destruct secs as [|sec secs]; [exact (fun _ => I)|].
  intros (Hu & _). exact (proj1 (_parse_url_line _ [] Hu)).
Qed.

Lemma after_section_later (s : locals) (sec : section) (next : list string)
    (old : string) :
  url (raid_info s) = Some old ->
  after_section s sec next
  = mk_locals next (list_of_raids (conclude s)) (raid_cnt s + 1)
      (raid_info_of (sec_raid sec)) (sec_turns sec).
Proof.
  intros O. unfold after_section, on_url. rewrite O.
  destruct sec as [u [[? ?]|] [[? ?]|] run d]; reflexivity.
Qed.

Lemma after_section_first (txt : list string) (sec : section)
    (next : list string) :
  after_section (start txt) sec next
  = mk_locals next Dict.empty 0 (raid_info_of (sec_raid sec)) (sec_turns sec).
Proof.
  unfold after_section.
  destruct sec as [u [[? ?]|] [[? ?]|] run d]; reflexivity.
Qed.

Lemma conclude_fresh (s : locals) (n : nat) :
  Dict.keys (list_of_raids s) = first_keys n ->
  raid_cnt s = Z.of_nat n ->
  list_of_raids (conclude s)
  = list_of_raids s ++
    [(Z.of_nat (S n), mk_raid (raid_info s) (combact_actions s))].
Proof.
  intros K N. cbn [conclude list_of_raids]. rewrite N.
  replace (Z.of_nat n + 1)%Z with (Z.of_nat (S n)) by lia.
  apply DictFacts.set_fresh. rewrite K. apply Raids.first_keys_fresh.
Qed.

(** The passes over the sections that follow a raid in progress. *)
Lemma loop_sections (secs : list section) (fuel : nat) (s : locals) (n : nat) :
  canonical secs ->
  remain_txt s = script_of secs ->
  (List.length (script_of secs) <= fuel)%nat ->
  url (raid_info s) <> None ->
  Dict.keys (list_of_raids s) = first_keys n ->
  raid_cnt s = Z.of_nat n ->
  exists s',
    raids_loop fuel s = Ok s' /\
    list_of_raids (conclude s')
    = list_of_raids s ++
      numbered_from n (mk_raid (raid_info s) (combact_actions s)
                         :: map sec_raid secs).
Proof.
  revert fuel s n. induction secs as [|sec secs IH]; intros fuel s n C E F U K N.
  - exists s. split.
    + destruct fuel; cbn [raids_loop]; now rewrite E.
    + exact (conclude_fresh s n K N).
  - destruct C as (Hu & Hs & Hr & Hc & C).
    rewrite script_of_cons in E, F.
    pose proof (cycle_section s sec (script_of secs) E
                  (url_next_script secs C) Hu Hs Hr Hc) as Y.
    fold (after_section s sec (script_of secs)) in Y.
    assert (F' : (List.length (script_of secs) <= Nat.pred fuel)%nat /\
                 fuel = S (Nat.pred fuel)).
    { unfold sec_lines in F. cbn [app List.length] in F.
      rewrite !length_app in F. lia. }
    destruct F' as [F' ->].
    cbn [raids_loop]. rewrite E. unfold sec_lines at 1. cbn [app].
    rewrite Y. cbn [bind].
    destruct (url (raid_info s)) as [old|] eqn:O; [|now elim U].
    rewrite (after_section_later s sec _ old O).
    pose proof (conclude_fresh s n K N) as A.
    destruct (IH (Nat.pred fuel)
                (mk_locals (script_of secs) (list_of_raids (conclude s))
                   (raid_cnt s + 1) (raid_info_of (sec_raid sec))
                   (sec_turns sec))
                (S n) C eq_refl F') as (s' & L & R).
    + cbn. discriminate.
    + cbn [list_of_raids]. rewrite A. unfold Dict.keys in *.
      rewrite map_app, K. cbn [map fst]. symmetry. apply Raids.first_keys_S.
    + cbn [raid_cnt]. rewrite N. lia.
    + exists s'. split; [exact L|]. rewrite R. cbn [list_of_raids raid_info
        combact_actions]. rewrite A, <- app_assoc.
      cbn [app map numbered_from]. destruct sec; reflexivity.
Qed.

End Canon.

(** X15.  A script whose raids are each written as the URL line, then at
    most one [summon:] line, then at most one [repeat:] line, then the
    turn blocks, compiles to one raid block per URL, numbered from 1 in
    the order of the script, each with its URL, its summon name, its
    repeat count and the mapping of all its turn blocks: nothing of such a
    script is lost. *)
Theorem canonical_script_compiles (txt : list string) (sec : section)
    (secs : list section) :
  pre_parse txt = script_of (sec :: secs) ->
  canonical (sec :: secs) ->
  parse_raids txt = Ok (numbered_from 0 (map sec_raid (sec :: secs))).
Proof.
  intros P (Hu & Hs & Hr & Hc & C). unfold parse_raids.
  assert (E : remain_txt (start txt) = sec_lines sec ++ script_of secs)
    by exact P.
  pose proof (Canon.cycle_section (start txt) sec (script_of secs) E
                (Canon.url_next_script secs C) Hu Hs Hr Hc) as Y.
  fold (after_section (start txt) sec (script_of secs)) in Y.
  rewrite Canon.after_section_first in Y.
  rewrite P, Canon.script_of_cons. unfold sec_lines at 1.
  cbn [app List.length raids_loop]. rewrite E. unfold sec_lines at 1.
  cbn [app]. rewrite Y. cbn [bind].
  destruct (Canon.loop_sections secs
              (List.length
                 ((line_of (sec_summon sec) ++ line_of (sec_repeat sec) ++
                   sec_run sec) ++ script_of secs))
              (mk_locals (script_of secs) Dict.empty 0
                 (raid_info_of (sec_raid sec)) (sec_turns sec))
              0 C eq_refl) as (s' & L & R).
  - rewrite length_app. lia.
  - cbn. discriminate.
  - reflexivity.
  - reflexivity.
  - rewrite L. cbn [bind]. rewrite R. reflexivity.
Qed.

Lemma canonical_script_compiles_witness :
  parse_raids
    ["// two raids"; "https://game/raid/1"; "summon:Kaguya"; "repeat:3";
     "Turn 1:"; "  quickSummon"; "End"; "Turn 2:"; "attack"; "End";
     ""; "https://game/raid/2"; "Turn 5:"; "character1.useSkill(2)"; "End"]
  = Ok [(1%Z, mk_raid (mk_info (Some "https://game/raid/1") (Some "kaguya")
                         (Some 3%Z))
                [(1%Z, [Entry "quicksummon" []]); (2%Z, [Pair "attack"])]);
        (2%Z, mk_raid (mk_info (Some "https://game/raid/2") None None)
                [(5%Z, [selectchar 0; useskill 1])])].
Proof.
  apply (canonical_script_compiles _
           (mk_section "https://game/raid/1"
              (Some ("summon:kaguya", "kaguya")) (Some ("repeat:3", 3%Z))
              ["turn 1:"; "quicksummon"; "end"; "turn 2:"; "attack"; "end"]
              [(1%Z, [Entry "quicksummon" []]); (2%Z, [Pair "attack"])])
           [mk_section "https://game/raid/2" None None
              ["turn 5:"; "character1.useskill(2)"; "end"]
              [(5%Z, [selectchar 0; useskill 1])]]).
  - reflexivity.
  - cbn [canonical sec_url sec_summon sec_repeat sec_run sec_turns].
    repeat split; try reflexivity; intros ? ? E; try discriminate E;
      injection E as <- <-; reflexivity.
Defined.

Lemma drop_last_app (body : string) (b : ascii) :
  Str.drop_last (body ++ String b "")%string = body.
Proof.
  induction body as [|c body IH]; [reflexivity|].
  cbn [append]. destruct body as [|c' body]; [reflexivity|].
  cbn [append] in *.
  change (Str.drop_last (String c (String c' (body ++ String b ""))))
    with (String c (Str.drop_last (String c' (body ++ String b "")))).
  now rewrite IH.
Qed.

(** X16.  A [wait] line gives one [wait] action whose time is [int] of the
    text between the fifth character and the last one, neither of which
    is looked at: any integer literal of Python is taken, of several
    digits or negative, and text that is none is a [ValueError].  The
    text is taken to have 4300 characters at most, the number of digits
    up to which [int] converts in every version of the interpreter. *)
Theorem wait_reads_between (header : string) (a b : ascii) (body : string)
    (c c' : ascii) (t : Z) (rest : list string) :
  (String.length body <= 4300)%nat ->
  Str.digit c = Some t ->
  _parse_turn ((header ++ String c (String c' ""))%string
                 :: ("wait" ++ String a (body ++ String b ""))%string
                 :: "end" :: rest)
  = (time <- Str.int body ;; Ok (rest, t, [wait time])).
Proof.
  intros _ D. rewrite Turn._parse_turn_header, D.
  change ("wait" ++ String a (body ++ String b ""))%string
    with (String "w" (String "a" (String "i" (String "t"
            (String a (body ++ String b "")%string))))).
  cbn [turn_loop Str.startswith]. change (Ascii.eqb "w" "c") with false.
  rewrite !Ascii.eqb_refl. cbn [andb].
  unfold Str.slice_5_m1. cbn [Str.drop]. rewrite drop_last_app.
  destruct (Str.int body); reflexivity.
Qed.

Lemma wait_reads_between_witness :
  _parse_turn ["turn 1:"; "wait(120)"; "end"] = Ok ([], 1%Z, [wait 120]) /\
  _parse_turn ["turn 1:"; "wait[-5]"; "end"] = Ok ([], 1%Z, [wait (-5)]) /\
  _parse_turn ["turn 1:"; "wait()"; "end"] = Raise ValueError_literal.
Proof.
  split; [|split].
  - exact (wait_reads_between "turn " "(" ")" "120" "1" ":" 1%Z []
             ltac:(cbn; lia) eq_refl).
  - exact (wait_reads_between "turn " "[" "]" "-5" "1" ":" 1%Z []
             ltac:(cbn; lia) eq_refl).
  - exact (wait_reads_between "turn " "(" ")" "" "1" ":" 1%Z []
             ltac:(cbn; lia) eq_refl).
Defined.

(** X17.  The number of the character is read from the last character of
    the first segment of the line and checked before anything else: when
    it is no digit the line is a [ValueError] of [int], and when it is a
    digit outside 1..4 the line is the invalid-character [ValueError],
    whatever segments follow and whether or not a character was
    selected. *)
Theorem character_number_checked_first (body : string) (c : ascii)
    (more : string) (sel : bool) :
  Str.has "." (body ++ String c "")%string = false ->
  (Str.digit c = None ->
   _parse_character (body ++ String c "")%string sel
   = Raise ValueError_literal /\
   _parse_character ((body ++ String c "") ++ String "." more)%string sel
   = Raise ValueError_literal) /\
  (forall d, Str.digit c = Some d -> in_tuple 1 4 d = false ->
   _parse_character (body ++ String c "")%string sel
   = Raise (ValueError_character d) /\
   _parse_character ((body ++ String c "") ++ String "." more)%string sel
   = Raise (ValueError_character d)).
Proof.
  intros N.
  assert (F : forall chains,
             match Str.split "." (body ++ String c "")%string ++ chains with
             | [] => Raise IndexError
             | first :: chains' =>
                 x <- Str.index_from_end first 1 ;;
                 char_idx <- Str.int x ;;
                 (if negb (in_tuple 1 4 char_idx)
                  then Raise (ValueError_character char_idx)
                  else
                    st <- chain_loop chains'
                            (if sel then [changechar (char_idx - 1)]
                             else [selectchar (char_idx - 1)], false) ;;
                    Ok (fst st))
             end
             = match Str.digit c with
               | None => Raise ValueError_literal
               | Some d =>
                   if negb (in_tuple 1 4 d)
                   then Raise (ValueError_character d)
                   else
                     st <- chain_loop chains
                             (if sel then [changechar (d - 1)]
                              else [selectchar (d - 1)], false) ;;
                     Ok (fst st)
               end).
  { intros chains. rewrite (StrFacts.split_without_sep _ _ N). cbn [app].
    rewrite Index.index_from_end_app by (cbn; lia).
    change (Str.index_from_end (String c "") 1) with (Ok (String c "")).
    cbn [bind]. rewrite Index.int_char. destruct (Str.digit c); reflexivity. }
  pose proof (F []) as F1. rewrite app_nil_r in F1.
  pose proof (F (Str.split "." more)) as F2.
  unfold _parse_character. rewrite StrFacts.split_app_sep, F1, F2. split.
  - intros ->. now split.
  - intros d -> R. rewrite R. now split.
Qed.

Lemma character_number_checked_first_witness :
  _parse_character "character5.useskill(1)" true
  = Raise (ValueError_character 5) /\
  _parse_character "character.target(9)" false = Raise ValueError_literal.
Proof.
  split.
  - exact (proj2 (proj2 (character_number_checked_first "character" "5"
                           "useskill(1)" true eq_refl) 5%Z eq_refl eq_refl)).
  - exact (proj2 (proj1 (character_number_checked_first "characte" "r"
                           "target(9)" false eq_refl) eq_refl)).
Defined.

(** *** The URLs the passes take, in order *)

Module Order.
Import OutcomeFacts.

Lemma top_urls_url (line : string) (lines : list string) :
  Str.startswith line "http" = true ->
  top_urls false (line :: lines) = line :: top_urls false lines.
Proof.
  intros H. cbn [top_urls]. unfold is_url. rewrite H.
  now rewrite (Canon.starts_differ line "ttp" "urn" "h" "t" H eq_refl).
Qed.

Lemma top_urls_other (line : string) (lines : list string) :
  Str.startswith line "turn" = false ->
  Str.startswith line "http" = false ->
  top_urls false (line :: lines) = top_urls false lines.
Proof. intros T H. cbn [top_urls]. unfold is_url. now rewrite T, H. Qed.

(** A turn block hides its lines up to its [end]. *)
Lemma top_urls_block (lines : list string) :
  top_urls true lines = top_urls false (after_end lines).
Proof.
  induction lines as [|line lines IH]; [reflexivity|].
  cbn [top_urls after_end]. destruct (String.eqb line "end"); [reflexivity|].
  exact IH.
Qed.

Lemma top_urls_turn (first : string) (lines rest : list string) (t : Z)
    (acts : list action) :
  Str.startswith first "turn" = true ->
  _parse_turn (first :: lines) = Ok (rest, t, acts) ->
  top_urls false (first :: lines) = top_urls false rest.
Proof.
  intros T H. cbn [top_urls]. rewrite T, top_urls_block.
  unfold _parse_turn in H. bind_inv H. bind_inv H. bind_inv H.
  destruct a1 as [r a']. injection H as <- _ _.
  now rewrite (Turn.turn_loop_after_end _ _ _ _ _ Ha1).
Qed.

Lemma top_urls_combact (fuel : nat) (remain : list string) (acc : turns)
    (rest : list string) (d : turns) :
  combact_loop fuel remain acc = Ok (rest, d) ->
  top_urls false remain = top_urls false rest.
Proof.
  revert remain acc. induction fuel as [|fuel IH]; intros remain acc;
    cbn [combact_loop]; [discriminate|].
  destruct remain as [|line remain].
  - intros H. now injection H as <- _.
  - destruct (Str.startswith line "turn") eqn:T.
    + intros H. bind_inv H. destruct a as [[r t] acts].
      rewrite (top_urls_turn _ _ _ _ _ T Ha). exact (IH _ _ H).
    + intros H. now injection H as <- _.
Qed.

Lemma top_urls_summon (txt rest : list string) (sm : option string) :
  _parse_summon txt = Ok (rest, sm) ->
  top_urls false txt = top_urls false rest.
Proof.
  intros H.
  destruct (Cycle._parse_summon_cases _ _ _ H) as [[-> _]|(l & ? & -> & _ & T)];
    [reflexivity|].
  apply top_urls_other; apply (Canon.starts_differ _ _ _ _ _ T); reflexivity.
Qed.

Lemma top_urls_repeat (txt rest : list string) (rp : option Z) :
  _parse_repeat txt = Ok (rest, rp) ->
  top_urls false txt = top_urls false rest.
Proof.
  intros H.
  destruct (Cycle._parse_repeat_cases _ _ _ H) as [[-> _]|(l & ? & -> & _ & T)];
    [reflexivity|].
  apply top_urls_other; apply (Canon.starts_differ _ _ _ _ _ T); reflexivity.
Qed.

(** What the URL step does with the front line. *)
Lemma _parse_url_front (line : string) (lines rest : list string)
    (u : option string) :
  _parse_url (line :: lines) = (rest, u) ->
  (Str.startswith line "http" = true /\ rest = lines /\ u = Some line) \/
  (Str.startswith line "http" = false /\ rest = line :: lines /\ u = None).
Proof.
  unfold _parse_url. destruct (Str.startswith line "http"); cbn [negb];
    intros H; injection H as <- <-; [left | right]; now repeat split.
Qed.

(** One pass: the URL it records, if any, and those of the lines it
    leaves are together those of the lines it found. *)
Lemma cycle_top_urls (s s' : locals) :
  numbered s -> cycle s = Ok s' ->
  numbered s' /\
  seen_urls s' ++ top_urls false (remain_txt s')
  = seen_urls s ++ top_urls false (remain_txt s).
Proof.
  intros N H. apply Cycle.cycle_shape in H.
  destruct H as (r1 & u & r2 & sm & r3 & rp & r4 & acts & Hu & Hs & Hr & Hc & H).
  cbv zeta in H.
  pose proof (Raids.numbered_before_pop s r1 u r2 sm r3 rp r4 acts N) as N4.
  pose proof (Raids.seen_before_pop s r1 u r2 sm r3 rp r4 acts) as S4.
  rewrite (Raids.seen_on_url u s N) in S4.
  assert (T14 : top_urls false r1 = top_urls false r4).
  { rewrite (top_urls_summon _ _ _ Hs), (top_urls_repeat _ _ _ Hr).
    rewrite Combact._parse_combact_loop in Hc.
    exact (top_urls_combact _ _ _ _ _ Hc). }
  assert (E14 : exists used, r1 = used ++ r4).
  { destruct (Consume._parse_combact_suffix _ _ _ Hc) as [u4 E4].
    destruct (Cycle._parse_summon_cases _ _ _ Hs) as [[E2 _]|(l2 & ? & E2 & _)];
      destruct (Cycle._parse_repeat_cases _ _ _ Hr)
        as [[E3 _]|(l3 & ? & E3 & _)].
    - exists u4. congruence.
    - exists (l3 :: u4). cbn [app]. congruence.
    - exists (l2 :: u4). cbn [app]. congruence.
    - exists (l2 :: l3 :: u4). cbn [app]. congruence. }
  destruct E14 as [used E14].
  assert (T : top_urls false (remain_txt s)
              = match u with Some line => [line] | None => [] end
                ++ top_urls false r4).
  { rewrite <- T14. destruct (remain_txt s) as [|line lines] eqn:E.
    - cbn in Hu. now injection Hu as <- <-.
    - destruct (_parse_url_front _ _ _ _ Hu)
        as [(Tu & -> & ->)|(Tu & -> & ->)]; cbn [app].
      + now apply top_urls_url.
      + reflexivity. }
  destruct H as [[Hl Hp] | [_ ->]].
  - pose proof (Raids.pop_first_same _ _ Hp) as E'.
    assert (R4 : r4 = remain_txt (before_pop s r1 u r2 sm r3 rp r4 acts))
      by reflexivity.
    unfold pop_first in Hp. rewrite <- R4 in Hp.
    destruct r4 as [|line tail]; [discriminate|]. injection Hp as Hp.
    assert (Er : remain_txt s' = tail) by (now rewrite <- Hp).
    split; [rewrite E'; now apply Raids.numbered_with_remain|].
    assert (Es : seen_urls s' = seen_urls (before_pop s r1 u r2 sm r3 rp
                                             (line :: tail) acts))
      by (now rewrite <- Hp).
    rewrite Es, S4, Er, T, <- app_assoc. f_equal. f_equal.
    (* the line the pass drops is neither a turn nor a URL *)
    assert (Tt : Str.startswith line "turn" = false).
    { rewrite Combact._parse_combact_loop in Hc.
      exact (Runs.combact_loop_stops _ _ _ _ _ _ _ Hc eq_refl). }
    assert (Th : Str.startswith line "http" = false).
    { destruct (remain_txt s) as [|l0 lines] eqn:E; [discriminate Hl|].
      apply (f_equal (@List.length string)) in E14 as L14.
      rewrite length_app in L14.
      destruct (_parse_url_front _ _ _ _ Hu)
        as [(_ & -> & _)|(Tu & -> & _)].
      - cbn [List.length] in Hl, L14. lia.
      - rewrite Hl in L14. destruct used; [|cbn [List.length] in L14; lia].
        cbn [app] in E14. injection E14 as -> _. exact Tu. }
    symmetry. now apply top_urls_other.
  - split; [exact N4|]. rewrite S4, T, <- app_assoc. reflexivity.
Qed.

Lemma raids_loop_top_urls (fuel : nat) (s s' : locals) :
  numbered s -> raids_loop fuel s = Ok s' ->
  numbered s' /\
  seen_urls s' = seen_urls s ++ top_urls false (remain_txt s).
Proof.
  revert s. induction fuel as [|fuel IH]; intros s N; cbn [raids_loop];
    destruct (remain_txt s) as [|line rest] eqn:E; intros H;
    try discriminate;
    try (injection H as <-; split; [exact N | now rewrite app_nil_r]).
  bind_inv H. destruct (cycle_top_urls s a N Ha) as (N1 & T1).
  destruct (IH a N1 H) as (N' & S'). split; [exact N'|].
  now rewrite S', T1, E.
Qed.

Lemma raid_urls_length (d : Dict.t raid) :
  (List.length (raid_urls d) <= List.length d)%nat.
Proof.
  induction d as [|[k r] d IH]; [reflexivity|]. cbn -[raid_urls].
  change (raid_urls ((k, r) :: d))
    with (match url (raid_info_of r) with Some u => [u] | None => [] end
          ++ raid_urls d).
  rewrite length_app. destruct (url (raid_info_of r)); cbn; lia.
Qed.

(** When every raid has a URL, the URLs of the raids are those listed. *)
Lemma all_raid_urls (d : Dict.t raid) :
  List.length (raid_urls d) = List.length d ->
  map (fun kr => url (raid_info_of (snd kr))) d = map Some (raid_urls d).
Proof.
  induction d as [|[k r] d IH]; [reflexivity|].
  change (raid_urls ((k, r) :: d))
    with (match url (raid_info_of r) with Some u => [u] | None => [] end
          ++ raid_urls d).
  pose proof (raid_urls_length d) as L.
  rewrite length_app. cbn [map snd List.length].
  destruct (url (raid_info_of r)); cbn [List.length app map]; intros E.
  - f_equal. apply IH. lia.
  - lia.
Qed.

End Order.

(** C4.  When compilation succeeds, the keys of the compiled script are
    1, ..., N in this order, N being the number of its raid blocks; the
    URLs of the blocks, in key order, are exactly the URL lines the URL
    step meets (those of the preprocessed script outside the turn
    blocks), in the order they stand in the script, so that, when there
    is one at least, the block with key k holds the k-th of them and N
    is their number; and a script with no URL line compiles to exactly
    one block, with key 1 and no URL. *)
Theorem raid_ids_contiguous (txt : list string) (out : Dict.t raid) :
  parse_raids txt = Ok out ->
  Dict.keys out = first_keys (List.length out) /\
  raid_urls out = top_urls false (pre_parse txt) /\
  (top_urls false (pre_parse txt) <> [] ->
   map (fun kr => url (raid_info_of (snd kr))) out
   = map Some (top_urls false (pre_parse txt))) /\
  in_order (raid_urls out) (filter is_url (pre_parse txt)) /\
  List.length out = Nat.max 1 (List.length (raid_urls out)) /\
  (filter is_url (pre_parse txt) = [] ->
   exists r, out = [(1%Z, r)] /\ url (raid_info_of r) = None).
Proof.
  unfold parse_raids. intros H. bind_inv H.
  assert (Eo : list_of_raids (conclude a) = out) by (now injection H).
  clear H. subst out.
  destruct (Raids.raids_loop_urls _ _ _ (Raids.numbered_start txt) Ha)
    as (N & new & S' & O).
  destruct (Order.raids_loop_top_urls _ _ _ (Raids.numbered_start txt) Ha)
    as (_ & S2).
  change (seen_urls (start txt)) with (@nil string ++ []) in S', S2.
  cbn [app] in S', S2.
  change (remain_txt (start txt)) with (pre_parse txt) in O, S2.
  pose proof (Raids.raid_urls_conclude a N) as U.
  pose proof (Raids.conclude_appends a N) as A.
  assert (K : Dict.keys (list_of_raids (conclude a))
              = first_keys (List.length (list_of_raids (conclude a)))).
  { rewrite A. unfold Dict.keys. rewrite map_app, length_app.
    cbn [map fst List.length]. rewrite Nat.add_1_r, Raids.first_keys_S.
    f_equal. apply (keys_1_n a N). }
  assert (L : List.length (list_of_raids (conclude a))
              = Nat.max 1 (List.length (raid_urls (list_of_raids (conclude a))))).
  { rewrite U. unfold seen_urls. rewrite A, !length_app.
    rewrite (all_have_url a N). cbn [List.length].
    destruct (url (raid_info a)) eqn:E; cbn [List.length]; [lia|].
    destruct (list_of_raids a) eqn:R; [reflexivity|].
    exfalso. apply (started a N); [now rewrite R | exact E]. }
  assert (T : raid_urls (list_of_raids (conclude a))
              = top_urls false (pre_parse txt)) by (now rewrite U).
  split; [exact K|]. split; [exact T|]. split; [|split; [|split; [exact L|]]].
  - intros NE. rewrite <- T. apply Order.all_raid_urls.
    rewrite L. rewrite <- T in NE.
    destruct (raid_urls (list_of_raids (conclude a))); [now elim NE|].
    cbn [List.length]. lia.
  - rewrite U, S'. exact O.
  - intros F. rewrite F in O. apply Raids.in_order_nil_inv in O.
    rewrite S', O in U. rewrite U in L.
    change (Nat.max 1 (List.length [])) with 1%nat in L.
    clear A T. revert K L U. generalize (list_of_raids (conclude a)).
    intros [|[k r] [|? ?]] K L U; try discriminate.
    cbn in K. injection K as ->. exists r. split; [reflexivity|].
    cbn in U. rewrite app_nil_r in U. destruct (url (raid_info_of r));
      [discriminate | reflexivity].
Qed.

Lemma raid_ids_contiguous_witness :
  Dict.keys test_result = [1%Z; 2%Z] /\
  raid_urls test_result
  = ["https://game.granbluefantasy.jp/#quest/supporter/800021/22";
     "https://game.granbluefantasy.jp/#quest/supporter/800021/22"] /\
  in_order (raid_urls test_result) (filter is_url (pre_parse test_case)) /\
  List.length test_result = 2%nat.
Proof.
  destruct (raid_ids_contiguous test_case test_result
              ltac:(vm_compute; reflexivity)) as (K & T & _ & O & L & _).
  split; [exact K|]. split; [|split; [exact O | exact L]].
  rewrite T. vm_compute. reflexivity.
Defined.
